(** * Mythic+ group maker: roster, solver, draft and lock model

    A shallow embedding of [src/index.mjs].  The file holds two variants of
    the bot one after the other; the second (lines 686-1663) is the first
    (lines 1-685) plus the per-role class bookkeeping, the class select
    menu and the [setlock]/[unlock] commands.  The solver, the swap helpers
    and the toggle code are the same text in both, up to the [classes]
    field that the second variant carries along, so the definitions below
    follow the second variant and say where the first one differs.

    - JS objects used as maps ([signups], [sessions], [classes]) are
      [gmap]s.  [Object.entries] lists the keys in insertion order and
      [map_to_list] in an order of its own; the solver shuffles that list
      first and no statement below depends on the order.
    - The [Set] of used ids is a [gset]; a role [Set], which the code turns
      back into an array, is a duplicate-free list in insertion order
      ([JSSet]).
    - [Math.random()] is an oracle [rnd : nat -> nat] with a call counter:
      the k-th call, which the code always reads as
      [Math.floor(Math.random() * n)], yields [rnd k mod n].
    - [Date.now()] is an argument [now : Z] (epoch milliseconds).
    - A handler is a function from the persisted guild state to the
      persisted state after the call and the reply: the state changes only
      where the source calls [saveState].  The message update, the
      permission lookup ([officer]) and the parsing of [customId] stay
      outside. *)

From stdpp Require Import gmap strings list fin_maps sorting pretty.

Open Scope string_scope.
Open Scope list_scope.
Open Scope Z_scope.

(** ** Data model *)

Abbreviation Classes := (gmap string (option string)).

(** The object literal [{ TANK: null, HEAL: null, DPS: null }]. *)
Definition noClasses : Classes :=
  <["TANK" := None]> (<["HEAL" := None]> (<["DPS" := None]> ∅)).

(** An entry of [session.signups]. *)
Record Signup := mkSignup {
  roles : list string;
  displayName : string;
  classes : option Classes
}.

(** A player object of [rollGroups] and a player reference of a draft:
    [{ id, name, roles, classes }]. *)
Record Player := mkPlayer {
  p_id : string;
  p_name : string;
  p_roles : list string;
  p_classes : Classes
}.

(** A group while the solver builds it: [{ tank, heal, dps: [] }]. *)
Record Group := mkGroup {
  g_tank : option Player;
  g_heal : option Player;
  g_dps : list Player
}.

Inductive Reason :=
  | CannotForm (tanks heals dps players : nat)
    (* `Cannot form any full groups (tanks=.., heals=.., dps=.., players=..).` *)
  | TriedSolves (attempts : Z).
    (* `Tried .. solves but couldn't find a valid assignment. ...` *)

(** What [rollGroups] returns: [{ groups, bench, reason }]. *)
Record Result := mkResult {
  r_groups : list Group;
  r_bench : list Player;
  reason : option Reason
}.

(** A group of a draft: [{ tank, heal, dps1, dps2, dps3 }]. *)
Record DraftGroup := mkDraftGroup {
  tank : option Player;
  heal : option Player;
  dps1 : option Player;
  dps2 : option Player;
  dps3 : option Player
}.

Record Draft := mkDraft {
  createdAt : Z;
  groups : list DraftGroup;
  bench : list Player
}.

(** A session; [messageId] and [channelId] only serve the message update
    and are left out. *)
Record Session := mkSession {
  s_id : string;
  title : string;
  description : string;
  lockAt : option Z;
  signups : gmap string Signup;
  s_createdAt : Z;
  lastDraft : option Draft
}.

(** [state.guilds[guildId]], which is what every handler works on. *)
Record GuildState := mkGuildState {
  currentSessionId : option string;
  sessions : gmap string Session
}.

(** ** JS [Set] of strings, as the array [[...set]] *)

Module JSSet.
Definition has (x : string) (s : list string) : bool := bool_decide (x ∈ s).
Definition add (x : string) (s : list string) : list string :=
  if has x s then s else s ++ [x].
Definition delete (x : string) (s : list string) : list string :=
  filter (λ y, y ≠ x) s.
(** [new Set(arr)] *)
Definition ofArray (arr : list string) : list string :=
  fold_left (λ s x, add x s) arr [].
Definition size (s : list string) : nat := length s.
End JSSet.

(** ** The solver, [rollGroups] *)

(** [Object.entries(signups).map(([id, info]) => ({...}))] *)
Definition playerOf (e : string * Signup) : Player :=
  {| p_id := e.1;
     p_name := if bool_decide (displayName e.2 = "") then "<@" +:+ e.1 +:+ ">"
               else displayName e.2;
     p_roles := JSSet.ofArray (roles e.2);
     p_classes := default ∅ (classes e.2) |}.

Definition playersOf (sg : gmap string Signup) : list Player :=
  playerOf <$> map_to_list sg.

(** [players.filter(p => p.roles.has(role)).length] *)
Definition countEligible (role : string) (players : list Player) : nat :=
  length (filter (λ p, role ∈ p_roles p) players).

Definition emptyGroup : Group := mkGroup None None [].

(** The mutable state of one attempt: [used], [groups] and the number of
    [Math.random()] calls made so far. *)
Record St := mkSt {
  used : gset string;
  grps : list Group;
  rng : nat
}.

(** The best attempt so far: [{ score, groups, bench }]. *)
Record Best := mkBest {
  score : nat;
  b_groups : list Group;
  b_bench : list Player
}.

(** [[arr[i], arr[j]] = [arr[j], arr[i]]]; the code only calls it with
    both indices in range. *)
Definition swapIdx {A} (i j : nat) (arr : list A) : list A :=
  match arr !! i, arr !! j with
  | Some x, Some y => <[j:=x]> (<[i:=y]> arr)
  | _, _ => arr
  end.

(** [candidates.sort((a, b) => a.roles.size - b.roles.size)]: the stable
    sort by number of roles, as insertion from the right. *)
Fixpoint insertBySize (x : Player) (l : list Player) : list Player :=
  match l with
  | [] => [x]
  | y :: l' =>
      if bool_decide (JSSet.size (p_roles x) ≤ JSSet.size (p_roles y))%nat
      then x :: y :: l'
      else y :: insertBySize x l'
  end.

Definition sortBySize (l : list Player) : list Player :=
  foldr insertBySize [] l.

Definition setTank (t : Player) (g : Group) : Group :=
  mkGroup (Some t) (g_heal g) (g_dps g).
Definition setHeal (h : Player) (g : Group) : Group :=
  mkGroup (g_tank g) (Some h) (g_dps g).
Definition pushDps (p : Player) (g : Group) : Group :=
  mkGroup (g_tank g) (g_heal g) (g_dps g ++ [p]).
Definition popDps (g : Group) : Group :=
  mkGroup (g_tank g) (g_heal g) (removelast (g_dps g)).

Section Solver.
(** The k-th call of [Math.random()], scaled and floored by its caller. *)
Variable rnd : nat → nat.

(** [shuffle]: the loop body at index [i], then [i - 1], down to 1. *)
Fixpoint shuffleFrom {A} (i : nat) (arr : list A) (k : nat) : list A * nat :=
  match i with
  | O => (arr, k)
  | S i' =>
      let j := (rnd k `mod` (i + 1))%nat in
      shuffleFrom i' (swapIdx i j arr) (S k)
  end.

Definition shuffle {A} (arr : list A) (k : nat) : list A * nat :=
  shuffleFrom (length arr - 1) arr k.

(** [pick(role)]; [Math.random()] is called only when a candidate exists. *)
Definition pick (pool : list Player) (role : string) (st : St)
  : option Player * nat :=
  let candidates := filter (λ p, role ∈ p_roles p ∧ p_id p ∉ used st) pool in
  match candidates with
  | [] => (None, rng st)
  | _ => (candidates !! (rnd (rng st) `mod` length candidates)%nat, S (rng st))
  end.

(** The "Tanks + Heals" loop: [n] iterations remain, the next is [g]. *)
Fixpoint tanksHeals (pool : list Player) (n g : nat) (st : St) : St :=
  match n with
  | O => st
  | S n' =>
      match pick pool "TANK" st with
      | (None, _) => st
      | (Some t, k1) =>
          let st1 := mkSt ({[p_id t]} ∪ used st) (alter (setTank t) g (grps st)) k1 in
          match pick pool "HEAL" st1 with
          | (None, _) => st1
          | (Some h, k2) =>
              tanksHeals pool n' (S g)
                (mkSt ({[p_id h]} ∪ used st1) (alter (setHeal h) g (grps st1)) k2)
          end
      end
  end.

(** The [for (const p of top)] loop of [fillDps]; [rec] is the call
    [fillDps(groupIndex, slotIndex + 1)].  [None] means that the
    recursion bound of [fillDps] below was hit. *)
Fixpoint tryEach (rec : St → option (bool * St)) (gi : nat)
    (top : list Player) (st : St) : option (bool * St) :=
  match top with
  | [] => Some (false, st)
  | p :: top' =>
      let st1 := mkSt ({[p_id p]} ∪ used st) (alter (pushDps p) gi (grps st)) (rng st) in
      match rec st1 with
      | None => None
      | Some (true, st2) => Some (true, st2)
      | Some (false, st2) =>
          tryEach rec gi top'
            (mkSt (used st2 ∖ {[p_id p]}) (alter popDps gi (grps st2)) (rng st2))
      end
  end.

(** [fillDps(groupIndex, slotIndex)].  The recursion of the source is on
    the slot position; [fuel] bounds its depth and [None] is returned
    when it runs out ([fillDps_enough_fuel] shows it never does from
    [attempt]). *)
Fixpoint fillDps (fuel : nat) (dpsCandidates : list Player)
    (groupIndex slotIndex : nat) (st : St) : option (bool * St) :=
  match fuel with
  | O => None
  | S fuel' =>
      if bool_decide (length (grps st) ≤ groupIndex)%nat then Some (true, st)
      else if bool_decide (3 ≤ slotIndex)%nat
      then fillDps fuel' dpsCandidates (groupIndex + 1) 0 st
      else
        let candidates :=
          sortBySize (filter (λ p, p_id p ∉ used st) dpsCandidates) in
        let top := take (10 `min` length candidates) candidates in
        let '(top, k) := shuffle top (rng st) in
        tryEach (fillDps fuel' dpsCandidates groupIndex (slotIndex + 1))
          groupIndex top (mkSt (used st) (grps st) k)
  end.

(** One pass of the attempt loop body, from [rng] position [k]:
    [Some (Some b, k')] when the attempt completes ([b] is the candidate
    for [best]), [Some (None, k')] when it [continue]s. *)
Definition missingTankOrHeal (gr : Group) : bool :=
  negb (bool_decide (is_Some (g_tank gr))) || negb (bool_decide (is_Some (g_heal gr))).

Definition tanksHealsPhase (players : list Player) (targetGroups : nat) (k : nat)
  : list Player * St :=
  let '(pool, k1) := shuffle players k in
  let groups := replicate targetGroups emptyGroup in
  (pool, tanksHeals pool (length groups) 0 (mkSt ∅ groups k1)).

Definition attempt (players : list Player) (targetGroups : nat) (k : nat)
  : option (option Best * nat) :=
  let '(pool, st) := tanksHealsPhase players targetGroups k in
  if existsb missingTankOrHeal (grps st) then Some (None, rng st)
  else
    let dpsCandidates := filter (λ p, "DPS" ∈ p_roles p) pool in
    match fillDps (4 * targetGroups + 1) dpsCandidates 0 0 st with
    | None => None
    | Some (false, st') => Some (None, rng st')
    | Some (true, st') =>
        let bench := filter (λ p, p_id p ∉ used st') pool in
        Some (Some (mkBest (size (used st')) (grps st') bench), rng st')
    end.

(** [!best || score > best.score] *)
Definition improves (b : Best) (best : option Best) : bool :=
  match best with
  | None => true
  | Some b0 => bool_decide (score b0 < score b)%nat
  end.

(** The [for (let attempt = 0; attempt < attempts; attempt++)] loop with
    [n] iterations left. *)
Fixpoint attemptLoop (players : list Player) (targetGroups : nat)
    (n : nat) (best : option Best) (k : nat) : option (option Best) :=
  match n with
  | O => Some best
  | S n' =>
      match attempt players targetGroups k with
      | None => None
      | Some (None, k') => attemptLoop players targetGroups n' best k'
      | Some (Some b, k') =>
          if improves b best then
            if bool_decide (score b = targetGroups * 5)%nat then Some (Some b)
            else attemptLoop players targetGroups n' (Some b) k'
          else attemptLoop players targetGroups n' best k'
      end
  end.

(** [Math.min(tanks, heals, Math.floor(dps / 3), Math.floor(players.length / 5))] *)
Definition maxByCounts (players : list Player) : Z :=
  Z.min (Z.min (Z.min (Z.of_nat (countEligible "TANK" players))
                      (Z.of_nat (countEligible "HEAL" players)))
               (Z.of_nat (countEligible "DPS" players) `div` 3))
        (Z.of_nat (length players) `div` 5).

(** [desiredGroups ? Math.min(desiredGroups, maxByCounts) : maxByCounts];
    [null] and [0] are the falsy values an integer option can take. *)
Definition targetGroupsOf (desiredGroups : option Z) (players : list Player) : Z :=
  match desiredGroups with
  | Some d => if bool_decide (d = 0) then maxByCounts players
              else d `min` maxByCounts players
  | None => maxByCounts players
  end.

Definition rollGroups (sg : gmap string Signup) (desiredGroups : option Z)
    (attempts : Z) : option Result :=
  let players := playersOf sg in
  let targetGroups := targetGroupsOf desiredGroups players in
  if bool_decide (targetGroups ≤ 0) then
    Some (mkResult [] players
            (Some (CannotForm (countEligible "TANK" players)
                              (countEligible "HEAL" players)
                              (countEligible "DPS" players)
                              (length players))))
  else
    match attemptLoop players (Z.to_nat targetGroups) (Z.to_nat attempts) None 0 with
    | None => None
    | Some None => Some (mkResult [] players (Some (TriedSolves attempts)))
    | Some (Some b) => Some (mkResult (b_groups b) (b_bench b) None)
    end.
End Solver.

(** ** Draft and swap helpers *)

(** A copy of a solver player for the draft:
    [{ id, name, roles: [...roles], classes: classes || {} }]. *)
Definition refOf (p : Player) : Player :=
  mkPlayer (p_id p) (p_name p) (p_roles p) (p_classes p).

(** [draftFromResult(result)], with [Date.now()] as [now]. *)
Definition draftGroupOf (g : Group) : DraftGroup :=
  {| tank := refOf <$> g_tank g;
     heal := refOf <$> g_heal g;
     dps1 := refOf <$> g_dps g !! 0%nat;
     dps2 := refOf <$> g_dps g !! 1%nat;
     dps3 := refOf <$> g_dps g !! 2%nat |}.

Definition draftFromResult (now : Z) (result : Result) : Draft :=
  {| createdAt := now;
     groups := draftGroupOf <$> r_groups result;
     bench := refOf <$> r_bench result |}.

(** The slot keys [['tank', 'heal', 'dps1', 'dps2', 'dps3']], in the order
    [findPlayerInDraft] tries them. *)
Inductive Slot := SlotTank | SlotHeal | SlotDps1 | SlotDps2 | SlotDps3.

Global Instance Slot_eq_dec : EqDecision Slot.
Proof. solve_decision. Defined.

Definition allSlots : list Slot := [SlotTank; SlotHeal; SlotDps1; SlotDps2; SlotDps3].

Definition slotName (s : Slot) : string :=
  match s with
  | SlotTank => "tank" | SlotHeal => "heal"
  | SlotDps1 => "dps1" | SlotDps2 => "dps2" | SlotDps3 => "dps3"
  end.

(** [g[slot]] and [g[slot] = v] *)
Definition getSlot (s : Slot) (g : DraftGroup) : option Player :=
  match s with
  | SlotTank => tank g | SlotHeal => heal g
  | SlotDps1 => dps1 g | SlotDps2 => dps2 g | SlotDps3 => dps3 g
  end.

Definition setSlot (s : Slot) (v : option Player) (g : DraftGroup) : DraftGroup :=
  match s with
  | SlotTank => mkDraftGroup v (heal g) (dps1 g) (dps2 g) (dps3 g)
  | SlotHeal => mkDraftGroup (tank g) v (dps1 g) (dps2 g) (dps3 g)
  | SlotDps1 => mkDraftGroup (tank g) (heal g) v (dps2 g) (dps3 g)
  | SlotDps2 => mkDraftGroup (tank g) (heal g) (dps1 g) v (dps3 g)
  | SlotDps3 => mkDraftGroup (tank g) (heal g) (dps1 g) (dps2 g) v
  end.

(** What [findPlayerInDraft] returns: [{ where: 'group', gi, slot }] or
    [{ where: 'bench', bi }]. *)
Inductive Loc :=
  | InGroup (gi : nat) (slot : Slot)
  | OnBench (bi : nat).

Global Instance Loc_eq_dec : EqDecision Loc.
Proof. solve_decision. Defined.

(** [g[slot]?.id === userId] *)
Definition slotHolds (userId : string) (g : DraftGroup) (s : Slot) : Prop :=
  p_id <$> getSlot s g = Some userId.

Global Instance slotHolds_dec userId g s : Decision (slotHolds userId g s).
Proof. unfold slotHolds. apply _. Defined.

(** The inner [for (const slot of [...])] loop: the first slot of [g]
    that holds [userId]. *)
Definition findSlot (userId : string) (g : DraftGroup) : option Slot :=
  snd <$> list_find (slotHolds userId g) allSlots.

(** [findPlayerInDraft(draft, userId)]: the first group with such a slot,
    else the first bench index with that id, else [null]. *)
Definition findPlayerInDraft (draft : Draft) (userId : string) : option Loc :=
  match list_find (λ g, is_Some (findSlot userId g)) (groups draft) with
  | Some (gi, g) => InGroup gi <$> findSlot userId g
  | None =>
      (λ r, OnBench r.1) <$> list_find (λ p, p_id p = userId) (bench draft)
  end.

(** [roleAllowedForSlot(player, slot)], on the slot's name. *)
Definition roleAllowedForSlot (player : option Player) (slot : string) : bool :=
  match player with
  | None => true
  | Some p =>
      let rs := JSSet.ofArray (p_roles p) in
      if bool_decide (slot = "tank") then JSSet.has "TANK" rs
      else if bool_decide (slot = "heal") then JSSet.has "HEAL" rs
      else if String.prefix "dps" slot then JSSet.has "DPS" rs
      else true
  end.

(** [getRef(loc)]: [container[key]] read and written through the location. *)
Definition readLoc (draft : Draft) (loc : Loc) : option Player :=
  match loc with
  | InGroup gi s => groups draft !! gi ≫= getSlot s
  | OnBench bi => bench draft !! bi
  end.

Definition writeLoc (loc : Loc) (p : Player) (draft : Draft) : Draft :=
  match loc with
  | InGroup gi s =>
      mkDraft (createdAt draft) (alter (setSlot s (Some p)) gi (groups draft)) (bench draft)
  | OnBench bi =>
      mkDraft (createdAt draft) (groups draft) (<[bi:=p]> (bench draft))
  end.

(** [ref.slotName] *)
Definition locSlotName (loc : Loc) : string :=
  match loc with
  | InGroup _ s => slotName s
  | OnBench _ => "bench"
  end.

(** [(ref.slotName === 'bench') ? true : roleAllowedForSlot(player, ref.slotName)] *)
Definition destinationOk (player : option Player) (dest : Loc) : bool :=
  if bool_decide (locSlotName dest = "bench") then true
  else roleAllowedForSlot player (locSlotName dest).

(** [hydrateDraftClassesFromSignups(session, draft)] (second variant only):
    [attach] on every slot and bench entry. *)
Definition attach (sg : gmap string Signup) (p : Player) : Player :=
  match sg !! p_id p with
  | Some info =>
      match classes info with
      | Some c => mkPlayer (p_id p) (p_name p) (p_roles p) c
      | None => p
      end
  | None => p
  end.

Definition hydrateGroup (sg : gmap string Signup) (g : DraftGroup) : DraftGroup :=
  mkDraftGroup (attach sg <$> tank g) (attach sg <$> heal g)
    (attach sg <$> dps1 g) (attach sg <$> dps2 g) (attach sg <$> dps3 g).

Definition hydrateDraftClassesFromSignups (sg : gmap string Signup) (draft : Draft)
  : Draft :=
  mkDraft (createdAt draft) (hydrateGroup sg <$> groups draft) (attach sg <$> bench draft).

Inductive SwapOutcome :=
  | NotInDraft      (* 'Both players must be in the current draft ...' *)
  | RoleMismatch    (* 'Swap would break role eligibility for the slot(s).' *)
  | Swapped (draft : Draft).

(** The body of the [swap] subcommand on the draft, from the two
    [findPlayerInDraft] calls to the hydration.  A located position always
    holds a player ([find_read]), so the inner [NotInDraft] is never
    taken. *)
Definition swapDraft (sg : gmap string Signup) (draft : Draft)
    (a b : string) (force : bool) : SwapOutcome :=
  match findPlayerInDraft draft a, findPlayerInDraft draft b with
  | Some aLoc, Some bLoc =>
      match readLoc draft aLoc, readLoc draft bLoc with
      | Some aPlayer, Some bPlayer =>
          if negb force &&
             (negb (destinationOk (Some aPlayer) bLoc) ||
              negb (destinationOk (Some bPlayer) aLoc))
          then RoleMismatch
          else
            Swapped (hydrateDraftClassesFromSignups sg
                       (writeLoc bLoc aPlayer (writeLoc aLoc bPlayer draft)))
      | _, _ => NotInDraft
      end
  | _, _ => NotInDraft
  end.

(** ** Sessions, lock and the interaction handlers *)

Inductive Reply :=
  | NoReply               (* the handler returned without a reply *)
  | OfficerOnly           (* 'Officer-only.' *)
  | NoActiveSession       (* 'No active session. Use /mplus create first.' *)
  | NoDraftYet            (* 'No draft yet. Run /mplus preview first.' *)
  | SwapNotInDraft
  | SwapRoleMismatch
  | SwapDone
  | PreviewDraft (d : Draft)
  | Rolled (r : Result)
  | SessionGone           (* 'This signup session no longer exists.' *)
  | LockedError           (* 'Signups are locked.' *)
  | Updated (roles : list string)   (* 'Updated: **..**' *)
  | Removed               (* 'Removed you from signups.' *)
  | RoleNotEligible       (* 'Pick the **..** role first.' *)
  | InvalidSubAttribute   (* 'That class cannot perform that role.' *)
  | ClassUpdated (c : option string)
  | LockUpdated (t : Z)   (* 'Updated lock time to ..' *)
  | LockRemoved.          (* 'Lock removed. Signups are open.' *)

(** The key [guildState.currentSessionId] under which the current session
    object lives ([""] stands in when there is none). *)
Definition currentSid (gs : GuildState) : string :=
  default "" (currentSessionId gs).

(** [getCurrentSession]: [sid ? guildState.sessions[sid] : null] *)
Definition getCurrentSession (gs : GuildState) : option Session :=
  match currentSessionId gs with
  | Some sid => if bool_decide (sid = "") then None else sessions gs !! sid
  | None => None
  end.

(** [getSessionById]: [guildState.sessions?.[sid] || null] *)
Definition getSessionById (gs : GuildState) (sid : string) : option Session :=
  sessions gs !! sid.

(** [session.lockAt && Date.now() >= session.lockAt]: [null] and [0] are
    the falsy values of a timestamp. *)
Definition locked (session : Session) (now : Z) : bool :=
  match lockAt session with
  | Some t => negb (bool_decide (t = 0)) && bool_decide (t ≤ now)
  | None => false
  end.

Definition withSignups (sg : gmap string Signup) (s : Session) : Session :=
  mkSession (s_id s) (title s) (description s) (lockAt s) sg (s_createdAt s) (lastDraft s).

Definition withDraft (d : option Draft) (s : Session) : Session :=
  mkSession (s_id s) (title s) (description s) (lockAt s) (signups s) (s_createdAt s) d.

(** [saveState(state)] after the session [sid] was changed in place. *)
Definition saveSession (gs : GuildState) (sid : string) (s : Session) : GuildState :=
  mkGuildState (currentSessionId gs) (<[sid := s]> (sessions gs)).

(** [session.signups[userId] ||= { roles: [], displayName, classes: {...} }]
    followed by [.classes ||= {...}]; the first variant has neither
    [classes] part ([withClasses = false]).  [dname] is the caller's
    [displayName]. *)
Definition ensureSignup (withClasses : bool) (sg : gmap string Signup)
    (userId dname : string) : Signup :=
  let e := default (mkSignup [] dname (if withClasses then Some noClasses else None))
                   (sg !! userId) in
  if withClasses
  then mkSignup (roles e) (displayName e) (Some (default noClasses (classes e)))
  else e.

(** The [toggle] branch on the role array. *)
Definition toggleRoles (role : string) (arr : list string) : list string :=
  let rs := JSSet.ofArray arr in
  if JSSet.has role rs then JSSet.delete role rs else JSSet.add role rs.

(** The button handler ([interaction.isButton()]); [customId] arrives
    split at [':'] into [prefix], [sid], [action] and [payload]. *)
Definition buttonHandler (withClasses : bool) (gs : GuildState)
    (prefix sid action payload userId dname : string) (now : Z)
  : GuildState * Reply :=
  if negb (bool_decide (prefix = "mplus")) then (gs, NoReply)
  else
    match getSessionById gs sid with
    | None => (gs, SessionGone)
    | Some session =>
        if locked session now then (gs, LockedError)
        else
          let e := ensureSignup withClasses (signups session) userId dname in
          if bool_decide (action = "toggle") then
            let roles' := toggleRoles payload (roles e) in
            let e' := mkSignup roles' dname (classes e) in
            (saveSession gs sid (withSignups (<[userId := e']> (signups session)) session),
             Updated roles')
          else if bool_decide (action = "leave") then
            (saveSession gs sid (withSignups (delete userId (signups session)) session),
             Removed)
          else (gs, NoReply)
    end.

(** [ROLE_CLASSES[roleKey] || new Set()] *)
Definition WOW_CLASSES : list string :=
  ["WARRIOR"; "PALADIN"; "HUNTER"; "ROGUE"; "PRIEST"; "DEATH_KNIGHT"; "SHAMAN";
   "MAGE"; "WARLOCK"; "MONK"; "DRUID"; "DEMON_HUNTER"; "EVOKER"].

Definition ROLE_CLASSES (roleKey : string) : list string :=
  if bool_decide (roleKey = "TANK")
  then ["WARRIOR"; "PALADIN"; "DEATH_KNIGHT"; "MONK"; "DRUID"; "DEMON_HUNTER"]
  else if bool_decide (roleKey = "HEAL")
  then ["PALADIN"; "PRIEST"; "SHAMAN"; "MONK"; "DRUID"; "EVOKER"]
  else if bool_decide (roleKey = "DPS") then WOW_CLASSES
  else [].

(** The select-menu handler ([interaction.isStringSelectMenu()], second
    variant only); [value] is [interaction.values[0]]. *)
Definition classSelectHandler (gs : GuildState)
    (prefix sid kind roleKey userId dname value : string) (now : Z)
  : GuildState * Reply :=
  if negb (bool_decide (prefix = "mplus")) || negb (bool_decide (kind = "class"))
  then (gs, NoReply)
  else
    match getSessionById gs sid with
    | None => (gs, SessionGone)
    | Some session =>
        if locked session now then (gs, LockedError)
        else
          let e := ensureSignup true (signups session) userId dname in
          let rs := JSSet.ofArray (roles e) in
          if negb (JSSet.has roleKey rs) then (gs, RoleNotEligible)
          else
            let allowed := ROLE_CLASSES roleKey in
            if negb (bool_decide (value = "UNSET")) && negb (JSSet.has value allowed)
            then (gs, InvalidSubAttribute)
            else
              let v := if bool_decide (value = "UNSET") then None else Some value in
              let e' := mkSignup (roles e) dname
                          (Some (<[roleKey := v]> (default noClasses (classes e)))) in
              (saveSession gs sid (withSignups (<[userId := e']> (signups session)) session),
               ClassUpdated v)
    end.

(** [interaction.options.getInteger('attempts') || 200] *)
Definition attemptsOf (a : option Z) : Z :=
  match a with
  | Some n => if bool_decide (n = 0) then 200 else n
  | None => 200
  end.

(** The [swap] subcommand (second variant; the first has no hydration). *)
Definition swapHandler (gs : GuildState) (officer : bool) (a b : string) (force : bool)
  : GuildState * Reply :=
  if negb officer then (gs, OfficerOnly)
  else
    match getCurrentSession gs with
    | None => (gs, NoActiveSession)
    | Some session =>
        match lastDraft session with
        | None => (gs, NoDraftYet)
        | Some draft =>
            match swapDraft (signups session) draft a b force with
            | NotInDraft => (gs, SwapNotInDraft)
            | RoleMismatch => (gs, SwapRoleMismatch)
            | Swapped draft' =>
                (saveSession gs (currentSid gs) (withDraft (Some draft') session), SwapDone)
            end
        end
    end.

(** The [setlock] and [unlock] subcommands (second variant):
    [session.lockAt = Date.now() + minutes * 60_000] and
    [session.lockAt = null].  [withLockAt] is [session.lockAt = l]. *)
Definition withLockAt (l : option Z) (s : Session) : Session :=
  mkSession (s_id s) (title s) (description s) l (signups s) (s_createdAt s) (lastDraft s).

Definition setlockHandler (gs : GuildState) (officer : bool) (minutes now : Z)
  : GuildState * Reply :=
  if negb officer then (gs, OfficerOnly)
  else
    match getCurrentSession gs with
    | None => (gs, NoActiveSession)
    | Some session =>
        let t := now + minutes * 60000 in
        (saveSession gs (currentSid gs) (withLockAt (Some t) session), LockUpdated t)
    end.

Definition unlockHandler (gs : GuildState) (officer : bool) : GuildState * Reply :=
  if negb officer then (gs, OfficerOnly)
  else
    match getCurrentSession gs with
    | None => (gs, NoActiveSession)
    | Some session =>
        (saveSession gs (currentSid gs) (withLockAt None session), LockRemoved)
    end.

Section SolverCommands.
Variable rnd : nat → nat.

(** The [preview] subcommand: the solver's result becomes the draft. *)
Definition previewHandler (gs : GuildState) (officer : bool)
    (groupsWanted attempts : option Z) (now : Z) : option (GuildState * Reply) :=
  if negb officer then Some (gs, OfficerOnly)
  else
    match getCurrentSession gs with
    | None => Some (gs, NoActiveSession)
    | Some session =>
        result ← rollGroups rnd (signups session) groupsWanted (attemptsOf attempts);
        let draft := draftFromResult now result in
        Some (saveSession gs (currentSid gs) (withDraft (Some draft) session),
              PreviewDraft draft)
    end.

(** The [roll] subcommand: the result is only posted. *)
Definition rollHandler (gs : GuildState) (officer : bool)
    (groupsWanted attempts : option Z) : option (GuildState * Reply) :=
  if negb officer then Some (gs, OfficerOnly)
  else
    match getCurrentSession gs with
    | None => Some (gs, NoActiveSession)
    | Some session =>
        result ← rollGroups rnd (signups session) groupsWanted (attemptsOf attempts);
        Some (gs, Rolled result)
    end.
End SolverCommands.

(** ** Notions used in the statements *)

(** *** The invariant of an attempt *)

(** The players a group holds, and those all groups hold. *)
Definition placedIn (g : Group) : list Player :=
  option_list (g_tank g) ++ option_list (g_heal g) ++ g_dps g.

Definition placed (gs : list Group) : list Player := gs ≫= placedIn.

(** Every occupant is eligible for the role of its slot. *)
Definition rolesOk (g : Group) : Prop :=
  (∀ t, g_tank g = Some t → "TANK" ∈ p_roles t) ∧
  (∀ h, g_heal g = Some h → "HEAL" ∈ p_roles h) ∧
  (∀ p, p ∈ g_dps g → "DPS" ∈ p_roles p).

(** No id is placed twice, [used] holds exactly the placed ids, every
    placed player comes from the pool and fits its slot's role. *)
Record Inv (pool : list Player) (u : gset string) (gs : list Group) : Prop := {
  inv_nodup : NoDup (p_id <$> placed gs);
  inv_used : ∀ i, i ∈ u ↔ i ∈ p_id <$> placed gs;
  inv_pool : ∀ p, p ∈ placed gs → p ∈ pool;
  inv_roles : Forall rolesOk gs
}.

(** Every group has its tank, its healer and three dps. *)
Definition fullGroup (g : Group) : Prop :=
  is_Some (g_tank g) ∧ is_Some (g_heal g) ∧ length (g_dps g) = 3%nat.

(** The dps arrays while [fillDps] stands at slot [si] of group [gi]:
    full before [gi], [si] long at [gi], empty after it. *)
Definition dpsLen (gi si j : nat) : nat :=
  if decide (j < gi)%nat then 3%nat else if decide (j = gi) then si else 0%nat.

Definition Shape (gi si : nat) (gs : list Group) : Prop :=
  ∀ j gr, gs !! j = Some gr →
    is_Some (g_tank gr) ∧ is_Some (g_heal gr) ∧ length (g_dps gr) = dpsLen gi si j.

(** What a call of [fillDps] (or of its loop) leaves behind: on [true] a
    full grid that keeps the invariant, on [false] the [used] set and the
    groups as they were. *)
Definition fillPost (pool : list Player) (st : St) (res : option (bool * St)) : Prop :=
  ∃ b st', res = Some (b, st') ∧
    if b then Inv pool (used st') (grps st') ∧ Forall fullGroup (grps st') ∧
              length (grps st') = length (grps st)
    else used st' = used st ∧ grps st' = grps st.

(** What a completed attempt hands to [best]. *)
Record Good (players : list Player) (G : nat) (b : Best) : Prop := {
  good_length : length (b_groups b) = G;
  good_full : Forall fullGroup (b_groups b);
  good_roles : Forall rolesOk (b_groups b);
  good_score : score b = (G * 5)%nat;
  good_ids : (p_id <$> placed (b_groups b)) ++ (p_id <$> b_bench b) ≡ₚ p_id <$> players
}.

(** The attempts that [n] turns of the loop would make if none of them
    ended it, each starting where the one before stopped drawing random
    numbers: [None] for an attempt that [continue]s. *)
Fixpoint attemptOutcomes (rnd : nat → nat) (players : list Player)
    (targetGroups n k : nat) : option (list (option Best)) :=
  match n with
  | O => Some []
  | S n' =>
      match attempt rnd players targetGroups k with
      | None => None
      | Some (ob, k') => (ob ::.) <$> attemptOutcomes rnd players targetGroups n' k'
      end
  end.

(** The first attempt of a run that completed. *)
Definition firstCompleted (outs : list (option Best)) : option Best :=
  head (omap id outs).

(** *** Results *)

(** The ids a draft holds: every slot of every group, then the bench. *)
Definition groupIds (g : DraftGroup) : list string :=
  omap (λ s, p_id <$> getSlot s g) allSlots.

Definition draftIds (d : Draft) : list string :=
  (groups d ≫= groupIds) ++ (p_id <$> bench d).

(** The signups that list [role]. *)
Definition eligible (role : string) (sg : gmap string Signup) : gmap string Signup :=
  filter (λ e, role ∈ roles e.2) sg.

(** The feasibility ceiling in the words of the specification. *)
Definition feasibilityCeiling (sg : gmap string Signup) : Z :=
  Z.min (Z.min (Z.min (Z.of_nat (size (eligible "TANK" sg)))
                      (Z.of_nat (size (eligible "HEAL" sg))))
               (Z.of_nat (size (eligible "DPS" sg)) `div` 3))
        (Z.of_nat (size sg) `div` 5).

(** The two [NoSolution] results. *)
Definition cannotForm (players : list Player) : Result :=
  mkResult [] players
    (Some (CannotForm (countEligible "TANK" players) (countEligible "HEAL" players)
                      (countEligible "DPS" players) (length players))).

Definition budgetExhausted (players : list Player) (attempts : Z) : Result :=
  mkResult [] players (Some (TriedSolves attempts)).

(** *** Sample rosters *)

(** A source of random numbers that always yields 0. *)
Definition constRnd : nat → nat := λ _, 0%nat.

(** Six signups: two players who can fill any role, three dps, and one
    player without a role. *)
Definition sampleRoster : gmap string Signup :=
  list_to_map
    [("u1", mkSignup ["TANK"; "HEAL"; "DPS"] "Ana" None);
     ("u2", mkSignup ["TANK"; "HEAL"; "DPS"] "Bo" None);
     ("u3", mkSignup ["DPS"] "Cy" None);
     ("u4", mkSignup ["DPS"] "Di" None);
     ("u5", mkSignup ["DPS"] "Ed" None);
     ("u6", mkSignup [] "Flo" None)].


(** A roster without a healer. *)
Definition noHealRoster : gmap string Signup :=
  list_to_map
    [("u1", mkSignup ["TANK"; "DPS"] "Ana" None);
     ("u2", mkSignup ["DPS"] "Bo" None);
     ("u3", mkSignup ["DPS"] "Cy" None);
     ("u4", mkSignup ["DPS"] "Di" None);
     ("u5", mkSignup ["TANK"] "Ed" None)].

(** The effective target group count as the specification words it, and as
    the code computes it: a desired count of 0 is falsy, so it counts as
    not given. *)
Definition statedTarget (desiredGroups : option Z) (sg : gmap string Signup) : Z :=
  match desiredGroups with
  | Some d => Z.min d (feasibilityCeiling sg)
  | None => feasibilityCeiling sg
  end.

Definition effectiveTarget (desiredGroups : option Z) (sg : gmap string Signup) : Z :=
  match desiredGroups with
  | Some d => if bool_decide (d = 0) then feasibilityCeiling sg
              else Z.min d (feasibilityCeiling sg)
  | None => feasibilityCeiling sg
  end.

(** *** Positions of a draft *)

(** The position [loc] of [d] holds the participant [u]. *)
Definition holds (d : Draft) (loc : Loc) (u : string) : Prop :=
  p_id <$> readLoc d loc = Some u.

(** No participant is held at two positions (the draft invariant). *)
Definition Unique (d : Draft) : Prop :=
  ∀ l1 l2 u, holds d l1 u → holds d l2 u → l1 = l2.

(** [aRef.container[aRef.key] = bPlayer; bRef.container[bRef.key] = aPlayer] *)
Definition exchange (la lb : Loc) (pa pb : Player) (d : Draft) : Draft :=
  writeLoc lb pa (writeLoc la pb d).

(** What a player reference is apart from its class snapshot. *)
Definition identityOf (p : Player) : string * string * list string :=
  (p_id p, p_name p, p_roles p).

(** *** Sample drafts and sessions *)

(** Two player references with no class picked when the draft was made. *)
Definition tankPlayer : Player := mkPlayer "u1" "Ana" ["TANK"; "DPS"] noClasses.
Definition dpsPlayer : Player := mkPlayer "u3" "Cy" ["DPS"] noClasses.

(** A draft with group 1's tank slot taken and one dps-only player on the
    bench. *)
Definition sampleDraft : Draft :=
  mkDraft 0 [mkDraftGroup (Some tankPlayer) None None None None] [dpsPlayer].

(** The same draft after a forced swap of the two. *)
Definition forcedDraft : Draft :=
  mkDraft 0 [mkDraftGroup (Some dpsPlayer) None None None None] [tankPlayer].

(** The draft [preview] stores for these two signups (no group can be
    formed), and the roster after [u3] has then picked the class MAGE. *)
Definition benchDraft : Draft := mkDraft 0 [] [dpsPlayer; tankPlayer].

Definition classRoster : gmap string Signup :=
  list_to_map
    [("u1", mkSignup ["TANK"; "DPS"] "Ana" (Some noClasses));
     ("u3", mkSignup ["DPS"] "Cy" (Some (<["DPS" := Some "MAGE"]> noClasses)))].

Definition sampleSession (lock : option Z) : Session :=
  mkSession "s1" "Weekly keys" "" lock classRoster 0 (Some sampleDraft).

Definition sampleGuild (lock : option Z) : GuildState :=
  mkGuildState (Some "s1") {[ "s1" := sampleSession lock ]}.

(** *** Roster and lock *)

(** The role set of a participant as the code reads it:
    [new Set(session.signups[userId].roles || [])], empty without entry. *)
Definition rolesOf (gs : GuildState) (sid userId : string) : list string :=
  JSSet.ofArray
    (default [] (s ← sessions gs !! sid; e ← signups s !! userId; Some (roles e))).

(** The stored class of a participant for a role: [None] when there is no
    such key, [Some None] for a stored [null]. *)
Definition classOf (gs : GuildState) (sid userId role : string) : option (option string) :=
  s ← sessions gs !! sid; e ← signups s !! userId; c ← classes e; c !! role.

(** The state with the lock deadline of every session replaced by [l]. *)
Definition relock (l : option Z) (gs : GuildState) : GuildState :=
  mkGuildState (currentSessionId gs) (withLockAt l <$> sessions gs).

(** ** More of the bot: the signup message, the class menus, the session store *)

(** The "Possible Groups" field of [buildSignupEmbed] (second variant):
    the counts are taken on the stored role arrays with [includes]. *)
Definition possibleGroups (sg : gmap string Signup) : Z :=
  let values := (map_to_list sg).*2 in
  let tanks := length (filter (λ s, "TANK" ∈ roles s) values) in
  let heals := length (filter (λ s, "HEAL" ∈ roles s) values) in
  let dps := length (filter (λ s, "DPS" ∈ roles s) values) in
  Z.min (Z.min (Z.min (Z.of_nat tanks) (Z.of_nat heals)) (Z.of_nat dps `div` 3))
        (Z.of_nat (length (map_to_list sg)) `div` 5).

(** *** Positions of a draft, listed *)

(** Every position of a draft, in the order [draftIds] reads them. *)
Definition locs (d : Draft) : list Loc :=
  (seq 0 (length (groups d)) ≫= λ gi, InGroup gi <$> allSlots) ++
  (OnBench <$> seq 0 (length (bench d))).

(** The id held at a position, if any. *)
Definition idAt (d : Draft) (loc : Loc) : option string := p_id <$> readLoc d loc.

(** The transposition of two positions. *)
Definition transpose (la lb loc : Loc) : Loc :=
  if decide (loc = lb) then la else if decide (loc = la) then lb else loc.

(** Every occupied group slot holds a player whom [roleAllowedForSlot]
    accepts for it. *)
Definition RoleValid (d : Draft) : Prop :=
  ∀ gi s p, readLoc d (InGroup gi s) = Some p →
            roleAllowedForSlot (Some p) (slotName s) = true.

(** A draft with two tanks, one of them on the bench. *)
Definition benchTank : Player := mkPlayer "u5" "Eli" ["TANK"] noClasses.

Definition twoTankDraft : Draft :=
  mkDraft 0 [mkDraftGroup (Some tankPlayer) None None None None] [dpsPlayer; benchTank].

(** *** The session store and the [create] and [clear] subcommands *)

(** [entries.sort((a, b) => (b[1].createdAt || 0) - (a[1].createdAt || 0))]:
    the stable sort, newest first, as insertion from the right
    ([createdAt] is a number, which [|| 0] leaves as it is). *)
Fixpoint insertByCreated (x : string * Session) (l : list (string * Session))
  : list (string * Session) :=
  match l with
  | [] => [x]
  | y :: l' =>
      if bool_decide (s_createdAt y.2 ≤ s_createdAt x.2)
      then x :: y :: l'
      else y :: insertByCreated x l'
  end.

Definition sortByCreated (l : list (string * Session)) : list (string * Session) :=
  foldr insertByCreated [] l.

(** What a slash command of this part answers. *)
Inductive CommandReply :=
  | CmdOfficerOnly        (* 'Officer-only.' *)
  | CmdThrown             (* the handler threw before any reply *)
  | CmdCreated            (* 'New signup session created.' *)
  | CmdNoSessionToClear   (* 'No active session to clear.' *)
  | CmdCleared.           (* 'Current session signups cleared.' *)

Section SessionStore.
(** [Object.entries(guildState.sessions || {})]: the entries in the key
    order of the object, which the map does not record. *)
Variable entriesOf : gmap string Session → list (string * Session).

(** [pruneOldSessions(guildState, keep)] *)
Definition pruneOldSessions (gs : GuildState) (keep : nat) : GuildState :=
  let entries := sortByCreated (entriesOf (sessions gs)) in
  let keepIds := JSSet.ofArray (take keep entries).*1 in
  mkGuildState (currentSessionId gs)
    (foldl (λ m e, if JSSet.has e.1 keepIds then m else delete e.1 m)
           (sessions gs) entries).

(** The [create] subcommand.  [now1], [now2] and [now3] are its three
    readings of [Date.now()]; [sent] tells whether
    [interaction.channel.send] resolved: when it rejects the handler
    throws before [saveState], and the state, which every interaction
    loads afresh, stays as it was. *)
Definition createHandler (gs : GuildState) (officer sent : bool)
    (guildId title : string) (description : option string) (lockMin : option Z)
    (now1 now2 now3 : Z) : GuildState * CommandReply :=
  if negb officer then (gs, CmdOfficerOnly)
  else
    let lockAt := match lockMin with
                  | Some m => if bool_decide (m = 0) then None else Some (now1 + m * 60000)
                  | None => None
                  end in
    let newSessionId := "s-" +:+ guildId +:+ "-" +:+ pretty now2 in
    let session :=
      mkSession newSessionId title
        (default "" description) lockAt ∅ now3 None in
    let gs1 := mkGuildState (Some newSessionId)
                 (<[newSessionId := session]> (sessions gs)) in
    let gs2 := pruneOldSessions gs1 12 in
    if sent then (gs2, CmdCreated) else (gs, CmdThrown).
End SessionStore.

(** The [clear] subcommand. *)
Definition clearHandler (gs : GuildState) (officer : bool) : GuildState * CommandReply :=
  if negb officer then (gs, CmdOfficerOnly)
  else
    match getCurrentSession gs with
    | None => (gs, CmdNoSessionToClear)
    | Some session =>
        (saveSession gs (currentSid gs)
           (mkSession (s_id session) (title session) (description session)
              (lockAt session) ∅ (s_createdAt session) None),
         CmdCleared)
    end.

(** The values of the class menu of a role, as [makeClassMenuRow] adds
    them: 'UNSET' first, then the classes of [WOW_CLASSES] that
    [ROLE_CLASSES[roleKey]] has. *)
Definition classMenuValues (roleKey : string) : list string :=
  "UNSET" :: filter (λ c, JSSet.has c (ROLE_CLASSES roleKey) = true) WOW_CLASSES.

(** Newest first. *)
Definition newerEq (a b : string * Session) : Prop :=
  s_createdAt b.2 ≤ s_createdAt a.2.

(** Two sessions of one guild, and the state holding both. *)
Definition oldSession : Session := mkSession "s-g-1" "Old" "" None ∅ 1 None.
Definition newSession : Session := mkSession "s-g-2" "New" "" None ∅ 2 None.
Definition twoSessions : GuildState :=
  mkGuildState (Some "s-g-2") (<["s-g-1" := oldSession]> {[ "s-g-2" := newSession ]}).

(** * Properties *)

(** ** Arrays: index swap, shuffle and sort only permute *)

Lemma insert_Permutation {A} (l : list A) i x y :
  l !! i = Some x → <[i:=y]> l ≡ₚ y :: delete i l.
Proof.
  revert i. induction l as [|a l IH]; intros [|i] Hi; simpl in *; try done.
  etrans; [apply Permutation_skip, (IH i Hi)|]. apply Permutation_swap.
Qed.

Lemma swapIdx_Permutation {A} i j (arr : list A) : swapIdx i j arr ≡ₚ arr.
Proof.
  unfold swapIdx.
  destruct (arr !! i) as [x|] eqn:Hi; [|done].
  destruct (arr !! j) as [y|] eqn:Hj; [|done].
  destruct (decide (i = j)) as [->|Hne].
  - simplify_eq. rewrite list_insert_insert_eq. by rewrite list_insert_id.
  - assert (Hj' : <[i:=y]> arr !! j = Some y) by by rewrite list_lookup_insert_ne.
    rewrite (insert_Permutation _ _ _ x Hj').
    rewrite (delete_Permutation arr i x Hi) at 2.
    apply Permutation_skip.
    apply (Permutation_cons_inv (a := y)).
    rewrite <- (delete_Permutation _ _ _ Hj').
    by apply (insert_Permutation _ _ x).
Qed.

Lemma insertBySize_Permutation x l : insertBySize x l ≡ₚ x :: l.
Proof.
  induction l as [|y l IH]; simpl; [done|].
  case_bool_decide; [done|]. rewrite IH. apply Permutation_swap.
Qed.

Lemma sortBySize_Permutation l : sortBySize l ≡ₚ l.
Proof.
  induction l as [|x l IH]; simpl; [done|].
  by rewrite insertBySize_Permutation, IH.
Qed.

Section SolverFacts.
Variable rnd : nat → nat.

Lemma shuffleFrom_Permutation {A} i (arr : list A) k :
  (shuffleFrom rnd i arr k).1 ≡ₚ arr.
Proof.
  revert arr k. induction i as [|i IH]; intros arr k; simpl; [done|].
  rewrite IH. apply swapIdx_Permutation.
Qed.

Lemma shuffle_Permutation {A} (arr : list A) k : (shuffle rnd arr k).1 ≡ₚ arr.
Proof. apply shuffleFrom_Permutation. Qed.
End SolverFacts.

(** ** Role sets *)

Lemma JSSet_has_true x s : JSSet.has x s = true ↔ x ∈ s.
Proof. unfold JSSet.has. by rewrite bool_decide_eq_true. Qed.

Lemma JSSet_elem_of_add x y s : x ∈ JSSet.add y s ↔ x = y ∨ x ∈ s.
Proof.
  unfold JSSet.add. destruct (JSSet.has y s) eqn:H.
  - apply JSSet_has_true in H. naive_solver.
  - rewrite elem_of_app, list_elem_of_singleton. naive_solver.
Qed.

Lemma JSSet_elem_of_delete x y s : x ∈ JSSet.delete y s ↔ x ≠ y ∧ x ∈ s.
Proof. unfold JSSet.delete. by rewrite list_elem_of_filter. Qed.

Lemma JSSet_elem_of_ofArray x arr : x ∈ JSSet.ofArray arr ↔ x ∈ arr.
Proof.
  unfold JSSet.ofArray.
  assert (∀ acc, x ∈ fold_left (λ s y, JSSet.add y s) arr acc ↔ x ∈ acc ∨ x ∈ arr) as H.
  { induction arr as [|a arr IH]; intros acc; simpl.
    - rewrite elem_of_nil. naive_solver.
    - rewrite IH, JSSet_elem_of_add, elem_of_cons. naive_solver. }
  rewrite H, elem_of_nil. naive_solver.
Qed.

(** ** Invariant of one attempt *)

Lemma placed_alter f g gr p (gs : list Group) :
  gs !! g = Some gr → placedIn (f gr) ≡ₚ p :: placedIn gr →
  placed (alter f g gs) ≡ₚ p :: placed gs.
Proof.
  unfold placed. revert g. induction gs as [|x gs IH]; intros [|g] Hg Hf; simplify_eq/=.
  - by rewrite Hf.
  - rewrite (IH g Hg Hf). by rewrite Permutation_middle.
Qed.

Lemma Forall_alter_1 {A} (P : A → Prop) f i (l : list A) :
  Forall P l → (∀ x, l !! i = Some x → P x → P (f x)) → Forall P (alter f i l).
Proof.
  intros Hl Hf. apply Forall_lookup. intros j y.
  rewrite list_lookup_alter. case_decide as Hij; [subst j|].
  - destruct (l !! i) as [x|] eqn:Hx; intros; simplify_eq/=.
    apply Hf; [done|]. by eapply Forall_lookup_1.
  - intros. by eapply Forall_lookup_1.
Qed.

Lemma Inv_place pool u gs g gr f p :
  Inv pool u gs → gs !! g = Some gr →
  placedIn (f gr) ≡ₚ p :: placedIn gr → (rolesOk gr → rolesOk (f gr)) →
  p ∈ pool → p_id p ∉ u →
  Inv pool ({[p_id p]} ∪ u) (alter f g gs).
Proof.
  intros [Hnd Hu Hp Hr] Hg Hf Hok Hin Hfresh.
  pose proof (placed_alter f g gr p gs Hg Hf) as Hperm.
  split.
  - rewrite Hperm, fmap_cons. apply NoDup_cons. split; [|done]. by rewrite <- Hu.
  - intros i. rewrite Hperm, fmap_cons, elem_of_cons, elem_of_union, elem_of_singleton.
    by rewrite Hu.
  - intros q. rewrite Hperm, elem_of_cons. intros [->|Hq]; auto.
  - apply Forall_alter_1; [done|]. intros x Hx. simplify_eq. done.
Qed.

Lemma Inv_empty pool n : Inv pool ∅ (replicate n emptyGroup).
Proof.
  assert (placed (replicate n emptyGroup) = []) as Hnil.
  { unfold placed. induction n as [|n IH]; [done|].
    change (replicate (S n) emptyGroup) with (emptyGroup :: replicate n emptyGroup).
    by rewrite bind_cons, IH. }
  split; rewrite ?Hnil.
  - constructor.
  - intros i. rewrite fmap_nil, elem_of_nil. set_solver.
  - intros p Hp. by apply elem_of_nil in Hp.
  - apply Forall_forall. intros g Hg%elem_of_replicate_inv. subst g.
    repeat split; intros ? H; simplify_eq/=. by apply elem_of_nil in H.
Qed.

Section AttemptFacts.
Variable rnd : nat → nat.

Lemma pick_Some pool role st p k :
  pick rnd pool role st = (Some p, k) →
  p ∈ pool ∧ role ∈ p_roles p ∧ p_id p ∉ used st.
Proof.
  unfold pick.
  destruct (filter _ pool) as [|c cs] eqn:Hc; intros H; simplify_eq.
  assert (p ∈ filter (λ p, role ∈ p_roles p ∧ p_id p ∉ used st) pool) as Hp.
  { rewrite Hc. by eapply list_elem_of_lookup_2. }
  apply list_elem_of_filter in Hp. naive_solver.
Qed.

(** The tank and heal loop keeps the invariant, touches no dps array and
    fills the groups in order. *)
Lemma tanksHeals_Inv pool n g st :
  (g + n ≤ length (grps st))%nat →
  Inv pool (used st) (grps st) →
  (∀ j gr, (g ≤ j)%nat → grps st !! j = Some gr → g_tank gr = None ∧ g_heal gr = None) →
  Forall (λ gr, g_dps gr = []) (grps st) →
  let st' := tanksHeals rnd pool n g st in
  Inv pool (used st') (grps st') ∧
  length (grps st') = length (grps st) ∧
  Forall (λ gr, g_dps gr = []) (grps st').
Proof.
  revert g st. induction n as [|n IH]; intros g st Hlen HI Htail Hdps; simpl; [done|].
  destruct (pick rnd pool "TANK" st) as [[t|] k1] eqn:Ht; [|done].
  apply pick_Some in Ht as (Htp & Htr & Htu).
  destruct (lookup_lt_is_Some_2 (grps st) g) as [gr Hgr]; [lia|].
  destruct (Htail g gr) as [Hgt Hgh]; [lia|done|].
  assert (Inv pool ({[p_id t]} ∪ used st) (alter (setTank t) g (grps st))) as HI1.
  { eapply Inv_place; eauto.
    - unfold placedIn, setTank; simpl. by rewrite Hgt.
    - intros (? & ? & ?). repeat split; simpl; auto. by intros ? [= <-]. }
  assert (Forall (λ gr, g_dps gr = []) (alter (setTank t) g (grps st))) as Hdps1.
  { apply Forall_alter_1; [done|]. by intros x _ Hx. }
  destruct (pick rnd pool "HEAL" _) as [[h|] k2] eqn:Hh.
  2:{ simpl. by rewrite length_alter. }
  apply pick_Some in Hh as (Hhp & Hhr & Hhu). simpl in Hhu.
  assert (alter (setTank t) g (grps st) !! g = Some (setTank t gr)) as Hgr1.
  { by rewrite list_lookup_alter_eq, Hgr. }
  edestruct (IH (S g) (mkSt ({[p_id h]} ∪ ({[p_id t]} ∪ used st))
                (alter (setHeal h) g (alter (setTank t) g (grps st))) k2))
    as (HI' & Hlen' & Hdps'); simpl in *.
  - rewrite !length_alter. lia.
  - eapply Inv_place; eauto.
    + unfold placedIn, setHeal, setTank; simpl. rewrite Hgh; simpl.
      apply Permutation_swap.
    + intros (? & ? & ?). repeat split; simpl; auto. by intros ? [= <-].
  - intros j gr' Hj. rewrite !list_lookup_alter_ne by lia. apply Htail. lia.
  - apply Forall_alter_1; [done|]. by intros x _ Hx.
  - split; [done|]. split; [|done]. by rewrite Hlen', !length_alter.
Qed.
End AttemptFacts.

(** ** The dps fill *)

Lemma pop_push p gi (gs : list Group) :
  alter popDps gi (alter (pushDps p) gi gs) = gs.
Proof.
  rewrite list_alter_alter_eq. apply list_alter_id. intros [t h d].
  unfold popDps, pushDps; simpl. by rewrite removelast_last.
Qed.

Lemma Shape_full gi si gs : (length gs ≤ gi)%nat → Shape gi si gs → Forall fullGroup gs.
Proof.
  intros Hlen HS. apply Forall_lookup. intros j gr Hj.
  destruct (HS j gr Hj) as (? & ? & Hd). repeat split; try done.
  apply lookup_lt_Some in Hj. unfold dpsLen in Hd. by rewrite decide_True in Hd by lia.
Qed.

Lemma Shape_next_group gi gs : Shape gi 3 gs → Shape (gi + 1) 0 gs.
Proof.
  intros HS j gr Hj. destruct (HS j gr Hj) as (? & ? & Hd). repeat split; try done.
  rewrite Hd. unfold dpsLen. repeat case_decide; lia.
Qed.

Lemma Shape_push gi si p gs :
  Shape gi si gs → Shape gi (si + 1) (alter (pushDps p) gi gs).
Proof.
  intros HS j gr. rewrite list_lookup_alter. case_decide as Hj.
  - subst j. destruct (gs !! gi) as [gr0|] eqn:Hgr; intros; simplify_eq/=.
    destruct (HS gi gr0 Hgr) as (? & ? & Hd). repeat split; try done.
    rewrite length_app, Hd. unfold dpsLen. repeat case_decide; simpl; lia.
  - intros Hgr. destruct (HS j gr Hgr) as (? & ? & Hd). repeat split; try done.
    rewrite Hd. unfold dpsLen. repeat case_decide; lia.
Qed.

Section FillFacts.
Variable rnd : nat → nat.
Variable pool : list Player.

Lemma tryEach_post rec gi si top st :
  (∀ st1, Inv pool (used st1) (grps st1) → Shape gi (si + 1) (grps st1) →
          length (grps st1) = length (grps st) → fillPost pool st1 (rec st1)) →
  Inv pool (used st) (grps st) → Shape gi si (grps st) →
  (gi < length (grps st))%nat →
  (∀ p, p ∈ top → p ∈ pool ∧ "DPS" ∈ p_roles p ∧ p_id p ∉ used st) →
  fillPost pool st (tryEach rec gi top st).
Proof.
  intros Hrec. revert st Hrec.
  induction top as [|p top IH]; intros st Hrec HI HS Hgi Htop; simpl.
  { by exists false, st. }
  destruct (Htop p) as (Hp & Hr & Hu); [left|].
  destruct (lookup_lt_is_Some_2 (grps st) gi Hgi) as [gr Hgr].
  set (st1 := mkSt ({[p_id p]} ∪ used st) (alter (pushDps p) gi (grps st)) (rng st)).
  destruct (Hrec st1) as (b & st2 & -> & Hpost).
  - eapply Inv_place; eauto.
    + unfold placedIn, pushDps; simpl.
      rewrite !app_assoc. by rewrite <- Permutation_cons_append.
    + intros (? & ? & Hd). repeat split; simpl; auto.
      intros q [Hq|Hq%list_elem_of_singleton]%elem_of_app; [auto|by subst q].
  - by apply Shape_push.
  - simpl. by rewrite length_alter.
  - destruct b.
    + exists true, st2. split; [done|]. destruct Hpost as (? & ? & Hl).
      split; [done|]. split; [done|]. rewrite Hl. apply length_alter.
    + destruct Hpost as [Hu2 Hg2]. rewrite Hu2, Hg2. simpl.
      rewrite pop_push.
      replace (({[p_id p]} ∪ used st) ∖ {[p_id p]}) with (used st) by set_solver.
      apply (IH (mkSt (used st) (grps st) (rng st2))); simpl; try done.
      intros q Hq. apply Htop. by right.
Qed.

Lemma fillDps_post dpsCandidates fuel gi si st :
  (∀ p, p ∈ dpsCandidates → p ∈ pool ∧ "DPS" ∈ p_roles p) →
  Inv pool (used st) (grps st) → Shape gi si (grps st) →
  (si ≤ 3)%nat → (1 ≤ fuel)%nat →
  (4 * (length (grps st) - gi) + 1 ≤ fuel + si)%nat →
  fillPost pool st (fillDps rnd fuel dpsCandidates gi si st).
Proof.
  intros Hc. revert gi si st.
  induction fuel as [|fuel IH]; intros gi si st HI HS Hsi Hf1 Hf; [lia|].
  cbn [fillDps].
  case_bool_decide as Hend.
  { exists true, st. split; [done|]. split; [done|]. split; [|done].
    by eapply Shape_full. }
  case_bool_decide as Hslot.
  { assert (si = 3%nat) as -> by lia.
    apply IH; try done; try lia. by apply Shape_next_group. }
  match goal with
  | |- context [shuffle rnd ?l ?k] =>
      pose proof (shuffle_Permutation rnd l k) as Hperm;
      destruct (shuffle rnd l k) as [top k'] eqn:Htop
  end.
  cbn [fst] in Hperm.
  apply (tryEach_post (fillDps rnd fuel dpsCandidates gi (si + 1)) gi si top
           (mkSt (used st) (grps st) k')); cbn [used grps]; try done.
  - intros st1 HI1 HS1 Hl1. apply IH; try done; lia.
  - lia.
  - intros p Hp. rewrite Hperm in Hp. apply subseteq_take in Hp.
    rewrite sortBySize_Permutation in Hp. apply list_elem_of_filter in Hp as [Hu Hp].
    destruct (Hc p Hp). done.
Qed.
End FillFacts.

(** ** One attempt, and the attempt loop *)

Lemma placed_length_full gs :
  Forall fullGroup gs → length (placed gs) = (length gs * 5)%nat.
Proof.
  unfold placed. induction 1 as [|g gs (Ht & Hh & Hd) _ IH]; [done|].
  rewrite bind_cons, length_app, IH. unfold placedIn.
  destruct Ht as [t ->], Hh as [h ->]. simpl. rewrite Hd. simpl. lia.
Qed.

Lemma missingTankOrHeal_false gs :
  existsb missingTankOrHeal gs = false →
  ∀ j gr, gs !! j = Some gr → is_Some (g_tank gr) ∧ is_Some (g_heal gr).
Proof.
  intros H j gr Hj. apply list_elem_of_lookup_2, list_elem_of_In in Hj.
  destruct (missingTankOrHeal gr) eqn:Hm.
  - assert (existsb missingTankOrHeal gs = true) as Ht; [|congruence].
    apply existsb_exists. eauto.
  - unfold missingTankOrHeal in Hm. apply orb_false_elim in Hm as [H1 H2].
    apply negb_false_iff, bool_decide_eq_true in H1, H2. done.
Qed.

Section LoopFacts.
Variable rnd : nat → nat.
Variable players : list Player.
Variable G : nat.
Hypothesis players_NoDup : NoDup (p_id <$> players).

Lemma attempt_post k :
  ∃ ob k', attempt rnd players G k = Some (ob, k') ∧
           ∀ b, ob = Some b → Good players G b.
Proof.
  unfold attempt, tanksHealsPhase.
  pose proof (shuffle_Permutation rnd players k) as Hpool.
  destruct (shuffle rnd players k) as [pool k1]. cbn [fst] in Hpool.
  rewrite length_replicate.
  destruct (tanksHeals_Inv rnd pool G 0 (mkSt ∅ (replicate G emptyGroup) k1))
    as (HI & Hlen & Hdps); cbn [used grps].
  { rewrite length_replicate. lia. }
  { apply Inv_empty. }
  { intros j gr _ Hj%lookup_replicate_1. by destruct Hj as [-> _]. }
  { apply Forall_forall. by intros g ->%elem_of_replicate_inv. }
  cbn [grps] in Hlen. rewrite length_replicate in Hlen.
  set (st := tanksHeals rnd pool G 0 _) in *.
  destruct (existsb missingTankOrHeal (grps st)) eqn:Hmiss.
  { eexists _, _. split; [done|]. intros b [=]. }
  destruct (fillDps_post rnd pool (filter (λ p, "DPS" ∈ p_roles p) pool)
              (4 * G + 1) 0 0 st) as (b & st' & -> & Hpost); try done; try lia.
  { intros p Hp%list_elem_of_filter. naive_solver. }
  { intros j gr Hj. destruct (missingTankOrHeal_false _ Hmiss j gr Hj).
    repeat split; try done.
    rewrite (Forall_lookup_1 _ _ _ _ Hdps Hj). unfold dpsLen.
    repeat case_decide; simpl; lia. }
  destruct b.
  2:{ eexists _, _. split; [done|]. intros b [=]. }
  destruct Hpost as (HI' & Hfull & Hlen').
  eexists _, _. split; [done|]. intros b [= <-].
  destruct HI' as [Hnd Hu Hp Hr].
  split; cbn [score b_groups b_bench]; try done.
  - congruence.
  - assert (used st' = list_to_set (p_id <$> placed (grps st'))) as ->.
    { apply set_eq. intros i. by rewrite elem_of_list_to_set. }
    rewrite size_list_to_set by done.
    rewrite length_fmap, placed_length_full by done. congruence.
  - assert (NoDup (p_id <$> pool)) as Hnp by by rewrite Hpool.
    rewrite <- Hpool. apply NoDup_Permutation; [|done|].
    + apply NoDup_app. split; [done|]. split.
      * intros i Hi%Hu [q [-> Hq%list_elem_of_filter]]%list_elem_of_fmap. naive_solver.
      * apply (sublist_NoDup _ (p_id <$> pool)); [done|].
        apply fmap_sublist, sublist_filter.
    + intros i. rewrite elem_of_app, !list_elem_of_fmap. split.
      * intros [(q & -> & Hq)|(q & -> & Hq%list_elem_of_filter)]; naive_solver.
      * intros (q & -> & Hq). destruct (decide (p_id q ∈ used st')) as [Hin|Hout].
        -- left. apply Hu in Hin. by apply list_elem_of_fmap in Hin.
        -- right. exists q. split; [done|]. by apply list_elem_of_filter.
Qed.

(** The loop never hits the recursion bound, and it returns the first
    attempt that completes: its score is already [targetGroups * 5]. *)
Lemma attemptLoop_first n k :
  ∃ outs, attemptOutcomes rnd players G n k = Some outs ∧ length outs = n ∧
          Forall (λ ob, ∀ b, ob = Some b → Good players G b) outs ∧
          attemptLoop rnd players G n None k = Some (firstCompleted outs).
Proof.
  revert k. induction n as [|n IH]; intros k; simpl.
  { by exists []. }
  destruct (attempt_post k) as (ob & k' & -> & Hgood).
  destruct (IH k') as (outs & -> & Hlen & Hall & Hloop).
  exists (ob :: outs). simpl. split; [done|]. split; [by rewrite Hlen|].
  split; [by constructor|].
  destruct ob as [b|]; [|done].
  unfold improves. rewrite bool_decide_eq_true_2; [done|].
  by destruct (Hgood b eq_refl).
Qed.
End LoopFacts.

(** ** What [rollGroups] returns *)

Lemma playersOf_ids sg : p_id <$> playersOf sg = (map_to_list sg).*1.
Proof. unfold playersOf. rewrite <- list_fmap_compose. by apply list_fmap_ext. Qed.

Lemma playersOf_NoDup sg : NoDup (p_id <$> playersOf sg).
Proof. rewrite playersOf_ids. apply NoDup_fst_map_to_list. Qed.

Lemma elem_of_playersOf_ids sg i : i ∈ p_id <$> playersOf sg ↔ i ∈ dom sg.
Proof.
  rewrite playersOf_ids, elem_of_dom, list_elem_of_fmap. split.
  - intros ([j x] & -> & H%elem_of_map_to_list). by exists x.
  - intros [x H]. exists (i, x). split; [done|]. by apply elem_of_map_to_list.
Qed.

Lemma size_filter_map_to_list (P : string * Signup → Prop) `{!∀ e, Decision (P e)}
    (sg : gmap string Signup) :
  length (filter P (map_to_list sg)) = size (filter P sg).
Proof.
  induction sg as [|i x m Hi IH] using map_ind.
  - by rewrite map_to_list_empty, map_filter_empty, map_size_empty.
  - rewrite (map_to_list_insert m i x Hi), map_filter_insert.
    case_decide.
    + rewrite filter_cons_True by done. simpl. rewrite IH.
      rewrite map_size_insert_None; [done|].
      apply map_lookup_filter_None. by left.
    + rewrite filter_cons_False by done. by rewrite IH, delete_id.
Qed.

Lemma countEligible_size role sg :
  countEligible role (playersOf sg) = size (eligible role sg).
Proof.
  unfold countEligible, eligible, playersOf.
  rewrite <- size_filter_map_to_list.
  induction (map_to_list sg) as [|e l IH]; [done|].
  rewrite fmap_cons.
  destruct (decide (role ∈ roles e.2)) as [Hr|Hr].
  - rewrite !filter_cons_True; [simpl; by rewrite IH|done|].
    simpl. by apply JSSet_elem_of_ofArray.
  - rewrite !filter_cons_False; [done|done|].
    simpl. by rewrite JSSet_elem_of_ofArray.
Qed.

Lemma maxByCounts_ceiling sg : maxByCounts (playersOf sg) = feasibilityCeiling sg.
Proof.
  unfold maxByCounts, feasibilityCeiling.
  rewrite !countEligible_size. unfold playersOf.
  by rewrite length_fmap, length_map_to_list.
Qed.

Lemma firstCompleted_Good players G outs b :
  Forall (λ ob, ∀ b, ob = Some b → Good players G b) outs →
  firstCompleted outs = Some b → Good players G b.
Proof.
  unfold firstCompleted. induction 1 as [|[b0|] outs Hb _ IH]; simpl; intros H.
  - done.
  - simplify_eq. by apply Hb.
  - by apply IH.
Qed.


(** The two ways [rollGroups] goes: the early return, or the attempt loop,
    whose answer is the first attempt that completes. *)
Lemma rollGroups_cases rnd sg desiredGroups attempts :
  let players := playersOf sg in
  let T := targetGroupsOf desiredGroups players in
  (T ≤ 0 ∧ rollGroups rnd sg desiredGroups attempts = Some (cannotForm players)) ∨
  (0 < T ∧ ∃ outs,
     attemptOutcomes rnd players (Z.to_nat T) (Z.to_nat attempts) 0 = Some outs ∧
     length outs = Z.to_nat attempts ∧
     Forall (λ ob, ∀ b, ob = Some b → Good players (Z.to_nat T) b) outs ∧
     rollGroups rnd sg desiredGroups attempts =
       Some (match firstCompleted outs with
             | None => budgetExhausted players attempts
             | Some b => mkResult (b_groups b) (b_bench b) None
             end)).
Proof.
  intros players T. unfold rollGroups. fold players. fold T.
  case_bool_decide as HT; [by left|]. right. split; [lia|].
  destruct (attemptLoop_first rnd players (Z.to_nat T) (playersOf_NoDup sg)
              (Z.to_nat attempts) 0) as (outs & Houts & Hlen & Hall & ->).
  exists outs. repeat split; try done. by destruct (firstCompleted outs).
Qed.

Lemma groupIds_full g :
  fullGroup g → groupIds (draftGroupOf g) = p_id <$> placedIn g.
Proof.
  intros (Ht & Hh & Hd). destruct g as [t h d]; simpl in *.
  destruct Ht as [t' ->], Hh as [h' ->].
  destruct d as [|a [|b [|c [|? ?]]]]; simplify_eq/=. done.
Qed.

Lemma draftIds_full now r :
  Forall fullGroup (r_groups r) →
  draftIds (draftFromResult now r) = (p_id <$> placed (r_groups r)) ++ (p_id <$> r_bench r).
Proof.
  intros Hfull. unfold draftIds, draftFromResult; simpl. f_equal.
  - unfold placed. induction Hfull as [|g gs Hg _ IH]; [done|].
    rewrite fmap_cons, !bind_cons, fmap_app, IH. by rewrite groupIds_full.
  - rewrite <- list_fmap_compose. by apply list_fmap_ext.
Qed.

Lemma targetGroupsOf_effective desiredGroups sg :
  targetGroupsOf desiredGroups (playersOf sg) = effectiveTarget desiredGroups sg.
Proof. unfold targetGroupsOf, effectiveTarget. by rewrite maxByCounts_ceiling. Qed.

Lemma feasibilityCeiling_nonneg sg : 0 ≤ feasibilityCeiling sg.
Proof.
  unfold feasibilityCeiling.
  repeat apply Z.min_glb; try apply Z.div_pos; lia.
Qed.

Lemma effectiveTarget_le desiredGroups sg :
  effectiveTarget desiredGroups sg ≤ feasibilityCeiling sg.
Proof.
  unfold effectiveTarget. destruct desiredGroups as [d|]; [|lia].
  case_bool_decide; lia.
Qed.

(** ** The claims about the solver *)

(** Closes a goal [∃ r, Some res = Some r ∧ (reason r = None → _)] for a
    result [res] that carries a reason. *)
Ltac with_reason := eexists; split; [done|]; intros [=].

(** C1 (no duplication).  Whatever the signups, the desired count, the
    budget and the random draws, [rollGroups] returns; and when it returns
    with [reason = null], the ids in the slots of the draft built from the
    result (tank, heal, dps1..3 of every group) and on its bench are
    pairwise distinct and are exactly the ids of the signup map. *)
Theorem rollGroups_no_duplication rnd sg desiredGroups attempts now :
  ∃ r, rollGroups rnd sg desiredGroups attempts = Some r ∧
       (reason r = None →
        NoDup (draftIds (draftFromResult now r)) ∧
        ∀ i, i ∈ draftIds (draftFromResult now r) ↔ i ∈ dom sg).
Proof.
  destruct (rollGroups_cases rnd sg desiredGroups attempts)
    as [[_ ->]|(_ & outs & _ & _ & Hall & ->)].
  { with_reason. }
  destruct (firstCompleted outs) as [b|] eqn:Hb.
  2:{ with_reason. }
  eexists. split; [done|]. intros _.
  destruct (firstCompleted_Good _ _ _ _ Hall Hb) as [_ Hfull _ _ Hids].
  rewrite draftIds_full by done. cbn [r_groups r_bench].
  split.
  - rewrite Hids. apply playersOf_NoDup.
  - intros i. rewrite Hids. apply elem_of_playersOf_ids.
Qed.

(** The run behind the witnesses: one group is formed. *)
Lemma sample_run_reason :
  reason <$> rollGroups constRnd sampleRoster None 200 = Some None.
Proof. vm_compute. reflexivity. Qed.

Lemma rollGroups_no_duplication_witness :
  ∃ r, rollGroups constRnd sampleRoster None 200 = Some r ∧
       reason r = None ∧
       NoDup (draftIds (draftFromResult 0 r)) ∧
       ∀ i, i ∈ draftIds (draftFromResult 0 r) ↔ i ∈ dom sampleRoster.
Proof.
  destruct (rollGroups_no_duplication constRnd sampleRoster None 200 0) as (r & Hr & H).
  exists r. split; [exact Hr|].
  assert (reason r = None) as Hnone.
  { pose proof sample_run_reason as Hs. rewrite Hr in Hs. by injection Hs. }
  split; [exact Hnone|]. exact (H Hnone).
Defined.

(** C2 (feasibility ceiling).  The number of groups in the result never
    exceeds min(#TANK-eligible, #HEAL-eligible, floor(#DPS-eligible / 3),
    floor(#signups / 5)), for every desired count and every budget. *)
Theorem rollGroups_feasibility_ceiling rnd sg desiredGroups attempts :
  ∃ r, rollGroups rnd sg desiredGroups attempts = Some r ∧
       Z.of_nat (length (r_groups r)) ≤ feasibilityCeiling sg.
Proof.
  pose proof (feasibilityCeiling_nonneg sg) as Hnn.
  destruct (rollGroups_cases rnd sg desiredGroups attempts)
    as [[_ ->]|(HT & outs & _ & _ & Hall & ->)].
  { eexists. split; [done|]. simpl. lia. }
  destruct (firstCompleted outs) as [b|] eqn:Hb.
  2:{ eexists. split; [done|]. simpl. lia. }
  eexists. split; [done|]. cbn [r_groups].
  destruct (firstCompleted_Good _ _ _ _ Hall Hb) as [-> _ _ _ _].
  rewrite targetGroupsOf_effective in *.
  pose proof (effectiveTarget_le desiredGroups sg). lia.
Qed.

(** C3, as the code has it.  The effective target is
    min(desired, ceiling) when a desired count other than 0 is given, and
    the ceiling otherwise (0 is falsy, like [null]).  When it is at most 0,
    [rollGroups] returns no group, the whole roster as bench and the
    diagnostic with the four counts (tanks, heals, dps, players). *)
Theorem rollGroups_no_target rnd sg desiredGroups attempts :
  effectiveTarget desiredGroups sg ≤ 0 →
  rollGroups rnd sg desiredGroups attempts =
    Some (mkResult [] (playersOf sg)
            (Some (CannotForm (size (eligible "TANK" sg)) (size (eligible "HEAL" sg))
                              (size (eligible "DPS" sg)) (size sg)))).
Proof.
  intros HT. rewrite <- targetGroupsOf_effective in HT.
  destruct (rollGroups_cases rnd sg desiredGroups attempts) as [[_ ->]|[? _]]; [|lia].
  unfold cannotForm. rewrite !countEligible_size. unfold playersOf at 2.
  by rewrite length_fmap, length_map_to_list.
Qed.

(** Without a healer the diagnostic says [heals=0], whatever the budget. *)
Lemma rollGroups_no_target_witness :
  effectiveTarget None noHealRoster ≤ 0 ∧
  rollGroups constRnd noHealRoster None 7 =
    Some (mkResult [] (playersOf noHealRoster) (Some (CannotForm 2 0 4 5))).
Proof.
  split; [by vm_compute|].
  apply (rollGroups_no_target constRnd noHealRoster None 7). by vm_compute.
Defined.

(** C3 as stated fails for [desired = 0]: the stated target
    min(0, ceiling) is 0, yet the code forms a group. *)
Lemma rollGroups_desired_zero :
  statedTarget (Some 0) sampleRoster ≤ 0 ∧
  ∃ r, rollGroups constRnd sampleRoster (Some 0) 200 = Some r ∧
       reason r = None ∧ length (r_groups r) = 1%nat.
Proof. split; [by vm_compute|]. eexists. by vm_compute. Qed.




(** C8 (slot eligibility).  In a result with [reason = null] every group
    has a tank whose role set has TANK, a healer whose role set has HEAL,
    and three dps whose role sets have DPS. *)
Theorem rollGroups_roles_fit rnd sg desiredGroups attempts :
  ∃ r, rollGroups rnd sg desiredGroups attempts = Some r ∧
       (reason r = None →
        Forall (λ g, (∃ t, g_tank g = Some t ∧ JSSet.has "TANK" (p_roles t) = true) ∧
                     (∃ h, g_heal g = Some h ∧ JSSet.has "HEAL" (p_roles h) = true) ∧
                     length (g_dps g) = 3%nat ∧
                     Forall (λ p, JSSet.has "DPS" (p_roles p) = true) (g_dps g))
               (r_groups r)).
Proof.
  destruct (rollGroups_cases rnd sg desiredGroups attempts)
    as [[_ ->]|(_ & outs & _ & _ & Hall & ->)].
  { with_reason. }
  destruct (firstCompleted outs) as [b|] eqn:Hb.
  2:{ with_reason. }
  eexists. split; [done|]. intros _. cbn [r_groups].
  destruct (firstCompleted_Good _ _ _ _ Hall Hb) as [_ Hfull Hroles _ _].
  apply Forall_forall. intros g Hg.
  destruct (proj1 (Forall_forall _ _) Hfull g Hg) as ([t Ht] & [h Hh] & Hd).
  destruct (proj1 (Forall_forall _ _) Hroles g Hg) as (Hrt & Hrh & Hrd).
  split; [|split; [|split]].
  - exists t. split; [done|]. apply JSSet_has_true. auto.
  - exists h. split; [done|]. apply JSSet_has_true. auto.
  - done.
  - apply Forall_forall. intros p Hp. apply JSSet_has_true. auto.
Qed.

Lemma rollGroups_roles_fit_witness :
  ∃ r, rollGroups constRnd sampleRoster None 200 = Some r ∧
       reason r = None ∧
       Forall (λ g, (∃ t, g_tank g = Some t ∧ JSSet.has "TANK" (p_roles t) = true) ∧
                    (∃ h, g_heal g = Some h ∧ JSSet.has "HEAL" (p_roles h) = true) ∧
                    length (g_dps g) = 3%nat ∧
                    Forall (λ p, JSSet.has "DPS" (p_roles p) = true) (g_dps g))
              (r_groups r).
Proof.
  destruct (rollGroups_roles_fit constRnd sampleRoster None 200) as (r & Hr & H).
  exists r. split; [exact Hr|].
  assert (reason r = None) as Hnone.
  { pose proof sample_run_reason as Hs. rewrite Hr in Hs. by injection Hs. }
  split; [exact Hnone|]. exact (H Hnone).
Defined.

(** ** Drafts: locating, reading and writing *)

Lemma elem_of_allSlots s : s ∈ allSlots.
Proof. unfold allSlots. destruct s; set_solver. Qed.

Lemma findSlot_Some u g s : findSlot u g = Some s → slotHolds u g s.
Proof.
  unfold findSlot. intros ([i s'] & H & ->)%fmap_Some.
  apply list_find_Some in H. naive_solver.
Qed.

Lemma findSlot_is_Some u g s : slotHolds u g s → is_Some (findSlot u g).
Proof.
  intros H. unfold findSlot. apply fmap_is_Some.
  apply (list_find_elem_of _ _ s); [apply elem_of_allSlots|done].
Qed.

Lemma find_holds d u loc : findPlayerInDraft d u = Some loc → holds d loc u.
Proof.
  unfold findPlayerInDraft, holds.
  destruct (list_find _ (groups d)) as [[gi g]|] eqn:Hg.
  - intros (s & Hs & ->)%fmap_Some. apply list_find_Some in Hg as (Hgi & _ & _).
    apply findSlot_Some in Hs. simpl. by rewrite Hgi.
  - intros ([bi p] & Hb & ->)%fmap_Some. apply list_find_Some in Hb as (Hbi & <- & _).
    simpl. by rewrite Hbi.
Qed.

Lemma holds_find d u loc : holds d loc u → is_Some (findPlayerInDraft d u).
Proof.
  unfold findPlayerInDraft, holds. intros H.
  destruct (list_find _ (groups d)) as [[gi g]|] eqn:Hg.
  - apply list_find_Some in Hg as (_ & Hs & _). by apply fmap_is_Some.
  - apply fmap_is_Some. destruct loc as [gi s|bi]; simpl in H.
    + exfalso. destruct (groups d !! gi) as [g|] eqn:Hgi; [|done]. simpl in H.
      apply list_find_None in Hg.
      apply (proj1 (Forall_forall _ _) Hg g); [by eapply list_elem_of_lookup_2|].
      by apply (findSlot_is_Some _ _ s).
    + destruct (bench d !! bi) as [p|] eqn:Hbi; [|done]. simplify_eq/=.
      apply (list_find_elem_of _ _ p); [by eapply list_elem_of_lookup_2|done].
Qed.

Lemma omap_NoDup_inj {A B} (f : A → option B) (l : list A) s t u :
  NoDup (omap f l) → s ∈ l → t ∈ l → f s = Some u → f t = Some u →
  NoDup l → s = t.
Proof.
  induction l as [|a l IH]; intros Hnd Hs Ht Hfs Hft Hl; [by apply elem_of_nil in Hs|].
  apply NoDup_cons in Hl as [Ha Hl].
  apply elem_of_cons in Hs as [->|Hs], Ht as [->|Ht]; try done.
  - simpl in Hnd. rewrite Hfs in Hnd. apply NoDup_cons in Hnd as [Hu _].
    destruct Hu. apply list_elem_of_omap. eauto.
  - simpl in Hnd. rewrite Hft in Hnd. apply NoDup_cons in Hnd as [Hu _].
    destruct Hu. apply list_elem_of_omap. eauto.
  - apply IH; try done. simpl in Hnd. destruct (f a); [|done].
    by apply NoDup_cons in Hnd as [_ ?].
Qed.

Lemma bind_NoDup_lookup {A B} (f : A → list B) (l : list A) i j x y u :
  NoDup (l ≫= f) → l !! i = Some x → l !! j = Some y → u ∈ f x → u ∈ f y →
  i = j ∧ NoDup (f x).
Proof.
  revert i j. induction l as [|a l IH]; intros i j Hnd Hi Hj Hx Hy; [done|].
  rewrite bind_cons in Hnd. apply NoDup_app in Hnd as (Ha & Hdisj & Hl).
  destruct i as [|i], j as [|j]; simplify_eq/=.
  - done.
  - destruct (Hdisj u Hx). apply list_elem_of_bind. exists y.
    split; [done|]. by eapply list_elem_of_lookup_2.
  - destruct (Hdisj u Hy). apply list_elem_of_bind. exists x.
    split; [done|]. by eapply list_elem_of_lookup_2.
  - destruct (IH i j Hl Hi Hj Hx Hy) as [-> ?]. done.
Qed.

Lemma elem_of_groupIds u g s : slotHolds u g s → u ∈ groupIds g.
Proof.
  intros H. apply list_elem_of_omap. exists s. split; [apply elem_of_allSlots|done].
Qed.

Lemma NoDup_allSlots : NoDup allSlots.
Proof. unfold allSlots. repeat (apply NoDup_cons; split; [set_solver|]). constructor. Qed.

(** A draft without a repeated id holds no participant twice. *)
Lemma NoDup_Unique d : NoDup (draftIds d) → Unique d.
Proof.
  unfold draftIds. intros (Hg & Hdisj & Hb)%NoDup_app l1 l2 u H1 H2.
  unfold holds in *.
  destruct l1 as [gi s|bi], l2 as [gj t|bj]; simpl in *.
  - destruct (groups d !! gi) as [g|] eqn:Hgi; [|done].
    destruct (groups d !! gj) as [g'|] eqn:Hgj; [|done]. simpl in *.
    destruct (bind_NoDup_lookup groupIds (groups d) gi gj g g' u) as [-> Hnd];
      try done; try by eapply elem_of_groupIds.
    simplify_eq. f_equal.
    eapply (omap_NoDup_inj _ allSlots s t u); try done;
      auto using elem_of_allSlots, NoDup_allSlots.
  - exfalso. destruct (groups d !! gi) as [g|] eqn:Hgi; [|done]. simpl in *.
    apply (Hdisj u).
    + apply list_elem_of_bind. exists g. split; [by eapply elem_of_groupIds|].
      by eapply list_elem_of_lookup_2.
    + destruct (bench d !! bj) as [p|] eqn:Hbj; simplify_eq/=.
      apply list_elem_of_fmap_2. by eapply list_elem_of_lookup_2.
  - exfalso. destruct (groups d !! gj) as [g|] eqn:Hgj; [|done]. simpl in *.
    apply (Hdisj u).
    + apply list_elem_of_bind. exists g. split; [by eapply elem_of_groupIds|].
      by eapply list_elem_of_lookup_2.
    + destruct (bench d !! bi) as [p|] eqn:Hbi; simplify_eq/=.
      apply list_elem_of_fmap_2. by eapply list_elem_of_lookup_2.
  - f_equal. apply (NoDup_lookup (p_id <$> bench d) bi bj u); try done;
      by rewrite list_lookup_fmap.
Qed.

Lemma find_unique d u loc : Unique d → holds d loc u → findPlayerInDraft d u = Some loc.
Proof.
  intros HU H. destruct (holds_find d u loc H) as [loc' Hloc'].
  rewrite Hloc'. f_equal. apply (HU loc' loc u); [by apply find_holds|done].
Qed.

Lemma getSlot_setSlot s v g : getSlot s (setSlot s v g) = v.
Proof. by destruct s. Qed.

Lemma getSlot_setSlot_ne s t v g : s ≠ t → getSlot t (setSlot s v g) = getSlot t g.
Proof. by destruct s, t. Qed.

Lemma setSlot_setSlot s v w g : setSlot s v (setSlot s w g) = setSlot s v g.
Proof. by destruct s. Qed.

Lemma setSlot_comm s t v w g :
  s ≠ t → setSlot s v (setSlot t w g) = setSlot t w (setSlot s v g).
Proof. by destruct s, t. Qed.

Lemma setSlot_id s g : setSlot s (getSlot s g) g = g.
Proof. by destruct s, g. Qed.

Lemma readLoc_writeLoc d loc p :
  is_Some (readLoc d loc) → readLoc (writeLoc loc p d) loc = Some p.
Proof.
  destruct loc as [gi s|bi]; simpl.
  - rewrite list_lookup_alter_eq. destruct (groups d !! gi); [|by intros [? ?]].
    intros _. simpl. apply getSlot_setSlot.
  - intros H%lookup_lt_is_Some. by apply list_lookup_insert_eq.
Qed.

Lemma readLoc_writeLoc_ne d loc loc' p :
  loc ≠ loc' → readLoc (writeLoc loc p d) loc' = readLoc d loc'.
Proof.
  destruct loc as [gi s|bi], loc' as [gj t|bj]; simpl; intros Hne; try done.
  - rewrite list_lookup_alter. case_decide; [subst gj|done].
    destruct (groups d !! gi); [|done]. simpl.
    apply getSlot_setSlot_ne. congruence.
  - apply list_lookup_insert_ne. congruence.
Qed.

Lemma writeLoc_writeLoc loc p q d : writeLoc loc p (writeLoc loc q d) = writeLoc loc p d.
Proof.
  destruct loc as [gi s|bi]; unfold writeLoc; simpl; f_equal.
  - rewrite list_alter_alter_eq. apply list_alter_ext; [|done].
    intros g _. apply setSlot_setSlot.
  - apply list_insert_insert_eq.
Qed.

Lemma writeLoc_comm loc loc' p q d :
  loc ≠ loc' → writeLoc loc p (writeLoc loc' q d) = writeLoc loc' q (writeLoc loc p d).
Proof.
  destruct loc as [gi s|bi], loc' as [gj t|bj]; unfold writeLoc; simpl;
    intros Hne; f_equal.
  - destruct (decide (gi = gj)) as [->|Hg].
    + rewrite !list_alter_alter_eq. apply list_alter_ext; [|done].
      intros g _. apply setSlot_comm. congruence.
    + by apply list_alter_alter_ne.
  - apply list_insert_insert_ne. congruence.
Qed.

Lemma writeLoc_id loc p d : readLoc d loc = Some p → writeLoc loc p d = d.
Proof.
  destruct d as [c gs b]. destruct loc as [gi s|bi]; unfold writeLoc; simpl; intros H.
  - f_equal. destruct (gs !! gi) as [g|] eqn:Hg; [|done]. simpl in H.
    rewrite <- H. rewrite <- (list_insert_id gs gi g Hg) at 2.
    rewrite list_insert_alter. apply list_alter_ext; [|done].
    intros g' Hg'. simplify_eq. apply setSlot_id.
  - f_equal. by apply list_insert_id.
Qed.

(** ** Hydration and the exchange of two positions *)

Lemma attach_identity sg p : identityOf (attach sg p) = identityOf p.
Proof. unfold attach. destruct (sg !! p_id p) as [[? ? [c|]]|]; done. Qed.

Lemma attach_id sg p : p_id (attach sg p) = p_id p.
Proof. unfold attach. destruct (sg !! p_id p) as [[? ? [c|]]|]; done. Qed.

Lemma attach_idem sg p : attach sg (attach sg p) = attach sg p.
Proof.
  unfold attach at 1. rewrite attach_id. unfold attach.
  destruct (sg !! p_id p) as [[? ? [c|]]|]; done.
Qed.

Lemma getSlot_hydrateGroup sg s g :
  getSlot s (hydrateGroup sg g) = attach sg <$> getSlot s g.
Proof. by destruct s. Qed.

Lemma hydrateGroup_setSlot sg s p g :
  hydrateGroup sg (setSlot s (Some p) g) = setSlot s (Some (attach sg p)) (hydrateGroup sg g).
Proof. by destruct s. Qed.

Lemma readLoc_hydrate sg d loc :
  readLoc (hydrateDraftClassesFromSignups sg d) loc = attach sg <$> readLoc d loc.
Proof.
  destruct loc as [gi s|bi]; simpl; rewrite list_lookup_fmap.
  - destruct (groups d !! gi); [|done]. simpl. apply getSlot_hydrateGroup.
  - done.
Qed.

Lemma writeLoc_hydrate sg d loc p :
  hydrateDraftClassesFromSignups sg (writeLoc loc p d) =
  writeLoc loc (attach sg p) (hydrateDraftClassesFromSignups sg d).
Proof.
  destruct loc as [gi s|bi]; unfold hydrateDraftClassesFromSignups, writeLoc; simpl; f_equal.
  - apply list_fmap_alter, Forall_forall. intros g _. apply hydrateGroup_setSlot.
  - apply list_fmap_insert.
Qed.

Lemma hydrate_idem sg d :
  hydrateDraftClassesFromSignups sg (hydrateDraftClassesFromSignups sg d) =
  hydrateDraftClassesFromSignups sg d.
Proof.
  unfold hydrateDraftClassesFromSignups; simpl. f_equal.
  - rewrite <- list_fmap_compose. apply list_fmap_ext. intros _ [t h d1 d2 d3] _.
    unfold hydrateGroup; simpl.
    f_equal; (match goal with |- _ <$> (_ <$> ?o) = _ => destruct o end); simpl;
      by rewrite ?attach_idem.
  - rewrite <- list_fmap_compose. apply list_fmap_ext. intros _ p _. apply attach_idem.
Qed.

Lemma holds_hydrate sg d loc u :
  holds (hydrateDraftClassesFromSignups sg d) loc u ↔ holds d loc u.
Proof.
  unfold holds. rewrite readLoc_hydrate. destruct (readLoc d loc); simpl; [|done].
  by rewrite attach_id.
Qed.

Lemma Unique_hydrate sg d : Unique d → Unique (hydrateDraftClassesFromSignups sg d).
Proof. intros HU l1 l2 u H1%holds_hydrate H2%holds_hydrate. eauto. Qed.

Lemma readLoc_exchange la lb pa pb d loc :
  readLoc d la = Some pa → readLoc d lb = Some pb →
  readLoc (exchange la lb pa pb d) loc =
    if decide (loc = lb) then Some pa
    else if decide (loc = la) then Some pb
    else readLoc d loc.
Proof.
  intros Ha Hb. unfold exchange. case_decide as H1; [subst loc|].
  - apply readLoc_writeLoc. destruct (decide (la = lb)) as [->|Hne].
    + by rewrite readLoc_writeLoc.
    + by rewrite readLoc_writeLoc_ne.
  - rewrite readLoc_writeLoc_ne by done. case_decide as H2; [subst loc|].
    + by rewrite readLoc_writeLoc.
    + by rewrite readLoc_writeLoc_ne.
Qed.

Lemma holds_exchange la lb pa pb d loc u :
  readLoc d la = Some pa → readLoc d lb = Some pb →
  holds (exchange la lb pa pb d) loc u ↔
    (loc = lb ∧ u = p_id pa) ∨
    (loc ≠ lb ∧ loc = la ∧ u = p_id pb) ∨
    (loc ≠ lb ∧ loc ≠ la ∧ holds d loc u).
Proof.
  intros Ha Hb. unfold holds. rewrite (readLoc_exchange la lb pa pb d) by done.
  repeat case_decide; simpl; naive_solver.
Qed.

Lemma Unique_exchange la lb pa pb d :
  Unique d → readLoc d la = Some pa → readLoc d lb = Some pb →
  Unique (exchange la lb pa pb d).
Proof.
  intros HU Ha Hb l1 l2 u H1 H2.
  assert (holds d la (p_id pa)) as Hha by (unfold holds; by rewrite Ha).
  assert (holds d lb (p_id pb)) as Hhb by (unfold holds; by rewrite Hb).
  apply (holds_exchange la lb pa pb d) in H1; [|done..].
  apply (holds_exchange la lb pa pb d) in H2; [|done..].
  destruct H1 as [[E1 U1]|[(N1 & E1 & U1)|(N1 & M1 & H1)]],
           H2 as [[E2 U2]|[(N2 & E2 & U2)|(N2 & M2 & H2)]]; subst.
  - done.
  - apply (HU lb la (p_id pa)); [by rewrite U2|done].
  - exfalso. apply M2. by apply (HU l2 la (p_id pa)).
  - apply (HU la lb (p_id pb)); [by rewrite U2|done].
  - done.
  - exfalso. apply N2. by apply (HU l2 lb (p_id pb)).
  - exfalso. apply M1. by apply (HU l1 la (p_id pa)).
  - exfalso. apply N1. by apply (HU l1 lb (p_id pb)).
  - by apply (HU l1 l2 u).
Qed.

Lemma exchange_back la lb pa pb d :
  readLoc d la = Some pa → readLoc d lb = Some pb →
  exchange lb la pa pb (exchange la lb pa pb d) = d.
Proof.
  intros Ha Hb. unfold exchange. rewrite writeLoc_writeLoc.
  destruct (decide (la = lb)) as [->|Hne].
  - simplify_eq. rewrite !writeLoc_writeLoc. by apply writeLoc_id.
  - rewrite (writeLoc_comm lb la) by done. rewrite writeLoc_writeLoc.
    rewrite (writeLoc_id lb pb d) by done. by apply writeLoc_id.
Qed.

(** What an accepted swap did. *)
Lemma swapDraft_Swapped sg d a b force d1 :
  swapDraft sg d a b force = Swapped d1 →
  ∃ la lb pa pb,
    findPlayerInDraft d a = Some la ∧ findPlayerInDraft d b = Some lb ∧
    readLoc d la = Some pa ∧ readLoc d lb = Some pb ∧
    d1 = hydrateDraftClassesFromSignups sg (exchange la lb pa pb d).
Proof.
  unfold swapDraft. intros H.
  destruct (findPlayerInDraft d a) as [la|] eqn:Ha; [|done].
  destruct (findPlayerInDraft d b) as [lb|] eqn:Hb; [|done].
  destruct (readLoc d la) as [pa|] eqn:Hpa; [|done].
  destruct (readLoc d lb) as [pb|] eqn:Hpb; [|done].
  destruct (negb force && _); [done|]. simplify_eq. by exists la, lb, pa, pb.
Qed.

Lemma find_read d u loc :
  findPlayerInDraft d u = Some loc → ∃ p, readLoc d loc = Some p ∧ p_id p = u.
Proof.
  intros H%find_holds. unfold holds in H.
  destruct (readLoc d loc) as [p|]; simplify_eq/=. by exists p.
Qed.

(** With [force] a swap of two located participants is always done. *)
Lemma swapDraft_force sg d a b la lb :
  findPlayerInDraft d a = Some la → findPlayerInDraft d b = Some lb →
  ∃ pa pb, readLoc d la = Some pa ∧ readLoc d lb = Some pb ∧
    swapDraft sg d a b true =
      Swapped (hydrateDraftClassesFromSignups sg (exchange la lb pa pb d)).
Proof.
  intros Ha Hb. destruct (find_read d a la Ha) as (pa & Hpa & _).
  destruct (find_read d b lb Hb) as (pb & Hpb & _).
  exists pa, pb. unfold swapDraft. by rewrite Ha, Hb, Hpa, Hpb.
Qed.

(** After an accepted swap the two participants are found at each other's
    former positions, and exchanging them again gives the hydrated
    original. *)
Lemma swapDraft_after sg d a b la lb pa pb :
  Unique d →
  findPlayerInDraft d a = Some la → findPlayerInDraft d b = Some lb →
  readLoc d la = Some pa → readLoc d lb = Some pb →
  let d1 := hydrateDraftClassesFromSignups sg (exchange la lb pa pb d) in
  findPlayerInDraft d1 a = Some lb ∧ findPlayerInDraft d1 b = Some la ∧
  readLoc d1 lb = Some (attach sg pa) ∧ readLoc d1 la = Some (attach sg pb) ∧
  hydrateDraftClassesFromSignups sg
    (exchange lb la (attach sg pa) (attach sg pb) d1) =
  hydrateDraftClassesFromSignups sg d.
Proof.
  intros HU Ha Hb Hpa Hpb d1.
  pose proof (find_holds _ _ _ Ha) as Hha. pose proof (find_holds _ _ _ Hb) as Hhb.
  unfold holds in Hha, Hhb. rewrite Hpa in Hha. rewrite Hpb in Hhb. simplify_eq/=.
  assert (Unique d1) as HU1 by by apply Unique_hydrate, Unique_exchange.
  assert (readLoc d1 lb = Some (attach sg pa)) as Hr1.
  { unfold d1. rewrite readLoc_hydrate, (readLoc_exchange la lb pa pb d) by done.
    by rewrite decide_True. }
  assert (readLoc d1 la = Some (attach sg pb)) as Hr2.
  { unfold d1. rewrite readLoc_hydrate, (readLoc_exchange la lb pa pb d) by done.
    case_decide; [by simplify_eq|]. by rewrite decide_True. }
  split_and!; try done.
  - apply find_unique; [done|]. unfold holds. by rewrite Hr1, <- (attach_id sg pa).
  - apply find_unique; [done|]. unfold holds. by rewrite Hr2, <- (attach_id sg pb).
  - unfold d1, exchange at 1. rewrite <- !writeLoc_hydrate.
    fold (exchange lb la pa pb (exchange la lb pa pb d)).
    rewrite exchange_back by done. apply hydrate_idem.
Qed.

(** ** The claims about the swap *)

(** C6 (swap atomicity on rejection).  When both participants are located
    in the current draft, [force] is false and one of the two destination
    checks fails, the swap is answered with the role mismatch and the
    persisted state, the draft in it included, is the one before the
    call. *)
Theorem swap_rejected_unchanged gs session draft a b la lb :
  getCurrentSession gs = Some session → lastDraft session = Some draft →
  findPlayerInDraft draft a = Some la → findPlayerInDraft draft b = Some lb →
  destinationOk (readLoc draft la) lb = false ∨
  destinationOk (readLoc draft lb) la = false →
  swapDraft (signups session) draft a b false = RoleMismatch ∧
  swapHandler gs true a b false = (gs, SwapRoleMismatch).
Proof.
  intros Hs Hd Ha Hb Hbad.
  assert (swapDraft (signups session) draft a b false = RoleMismatch) as Hswap.
  { unfold swapDraft. rewrite Ha, Hb.
    destruct (find_read _ _ _ Ha) as (pa & Hpa & _).
    destruct (find_read _ _ _ Hb) as (pb & Hpb & _).
    rewrite Hpa, Hpb in *. by destruct Hbad as [-> | ->]; simpl; rewrite ?orb_true_r. }
  split; [done|]. unfold swapHandler. simpl. by rewrite Hs, Hd, Hswap.
Qed.

Lemma swap_rejected_unchanged_witness :
  swapDraft classRoster sampleDraft "u3" "u1" false = RoleMismatch ∧
  swapHandler (sampleGuild None) true "u3" "u1" false = (sampleGuild None, SwapRoleMismatch).
Proof.
  apply (swap_rejected_unchanged (sampleGuild None) (sampleSession None) sampleDraft
           "u3" "u1" (OnBench 0) (InGroup 0 SlotTank)); try by vm_compute.
  left. by vm_compute.
Defined.

(** C7, as the code has it.  In a draft without a repeated id, when the
    swap of [a] and [b] is accepted and the same swap is accepted again,
    the result is the original draft with its class snapshots refreshed
    from the roster: every position holds the player (id, name and roles)
    it held before, and the draft is the original one when its classes
    already agreed with the roster.  With [force] the second swap is
    always accepted. *)
Theorem swap_twice sg d a b force d1 :
  NoDup (draftIds d) →
  swapDraft sg d a b force = Swapped d1 →
  (∀ d2, swapDraft sg d1 a b force = Swapped d2 →
         d2 = hydrateDraftClassesFromSignups sg d ∧
         (∀ loc, identityOf <$> readLoc d2 loc = identityOf <$> readLoc d loc) ∧
         (hydrateDraftClassesFromSignups sg d = d → d2 = d)) ∧
  (force = true →
   swapDraft sg d1 a b force = Swapped (hydrateDraftClassesFromSignups sg d)).
Proof.
  intros Hnd%NoDup_Unique H1.
  apply swapDraft_Swapped in H1 as (la & lb & pa & pb & Ha & Hb & Hpa & Hpb & ->).
  destruct (swapDraft_after sg d a b la lb pa pb) as (Ha' & Hb' & Hpa' & Hpb' & Hback);
    try done.
  assert (∀ d2, swapDraft sg
            (hydrateDraftClassesFromSignups sg (exchange la lb pa pb d)) a b force
            = Swapped d2 → d2 = hydrateDraftClassesFromSignups sg d) as Hsecond.
  { intros d2. unfold swapDraft. rewrite Ha', Hb', Hpa', Hpb'.
    destruct (negb force && _); [done|]. intros [= <-]. exact Hback. }
  split.
  - intros d2 ->%Hsecond. split; [done|]. split; [|done].
    intros loc. rewrite readLoc_hydrate. destruct (readLoc d loc); [|done].
    simpl. by rewrite attach_identity.
  - intros ->. unfold swapDraft. rewrite Ha', Hb', Hpa', Hpb'. simpl.
    f_equal. exact Hback.
Qed.

Lemma swap_twice_witness :
  swapDraft classRoster sampleDraft "u1" "u3" true =
    Swapped (hydrateDraftClassesFromSignups classRoster forcedDraft) ∧
  swapDraft classRoster (hydrateDraftClassesFromSignups classRoster forcedDraft)
    "u1" "u3" true =
    Swapped (hydrateDraftClassesFromSignups classRoster sampleDraft).
Proof.
  assert (swapDraft classRoster sampleDraft "u1" "u3" true =
            Swapped (hydrateDraftClassesFromSignups classRoster forcedDraft)) as H1
    by by vm_compute.
  split; [exact H1|].
  apply (swap_twice classRoster sampleDraft "u1" "u3" true _) in H1 as [_ H2].
  - by apply H2.
  - unfold sampleDraft, draftIds. simpl. repeat constructor; set_solver.
Defined.

(** C7 as stated fails in two ways.  Swapping two benched players twice
    without [force] gives back the positions, but the class snapshot of
    [u3] now is the roster's, not the draft's; and after a forced swap has
    put a dps-only player into a tank slot, an unforced swap that is
    accepted once is refused the second time. *)
Lemma swap_twice_differs :
  (∃ d1 d2,
     swapDraft classRoster benchDraft "u3" "u1" false = Swapped d1 ∧
     swapDraft classRoster d1 "u3" "u1" false = Swapped d2 ∧
     d2 ≠ benchDraft) ∧
  (∃ d1,
     swapDraft ∅ forcedDraft "u3" "u1" false = Swapped d1 ∧
     swapDraft ∅ d1 "u3" "u1" false = RoleMismatch).
Proof.
  split.
  - eexists _, _. split; [by vm_compute|]. split; [by vm_compute|].
    intros H.
    apply (f_equal (λ d, p ← bench d !! 0%nat; p_classes p !! "DPS")) in H.
    vm_compute in H. discriminate H.
  - eexists. split; by vm_compute.
Qed.

(** ** The claims about the roster and the lock *)

Lemma ensureSignup_roles wc sg uid n :
  roles (ensureSignup wc sg uid n) = default [] (roles <$> sg !! uid).
Proof. unfold ensureSignup. by destruct (sg !! uid), wc. Qed.

Lemma elem_of_toggleRoles x r l :
  x ∈ toggleRoles r l ↔ (x ≠ r ∧ x ∈ l) ∨ (x = r ∧ r ∉ l).
Proof.
  unfold toggleRoles. destruct (JSSet.has r (JSSet.ofArray l)) eqn:H.
  - rewrite JSSet_has_true, JSSet_elem_of_ofArray in H.
    rewrite JSSet_elem_of_delete, JSSet_elem_of_ofArray.
    split; [by left|]. intros [?|[_ ?]]; done.
  - assert (r ∉ l) as Hr.
    { intros Hr. rewrite <- JSSet_elem_of_ofArray, <- JSSet_has_true in Hr. congruence. }
    rewrite JSSet_elem_of_add, JSSet_elem_of_ofArray.
    destruct (decide (x = r)) as [->|Hx].
    + split; [by right|by left].
    + split; [intros [?|?]; [done|by left]|intros [[_ ?]|[? _]]; [by right|done]].
Qed.

Lemma toggleRoles_twice x r l : x ∈ toggleRoles r (toggleRoles r l) ↔ x ∈ l.
Proof.
  rewrite (elem_of_toggleRoles x r (toggleRoles r l)).
  rewrite !elem_of_toggleRoles.
  destruct (decide (x = r)) as [->|Hx], (decide (r ∈ l)) as [Hr|Hr].
  - split; [done|]. intros _. right. split; [done|]. intros [[? _]|[_ ?]]; done.
  - split; [|done]. intros [[? _]|[_ Hn]]; [done|]. destruct Hn. by right.
  - split; [intros [[_ [[_ ?]|[? _]]]|[? _]]; done|]. intros ?. left. split; [done|by left].
  - split; [intros [[_ [[_ ?]|[? _]]]|[? _]]; done|]. intros ?. left. split; [done|by left].
Qed.

Lemma getCurrentSession_relock l gs :
  getCurrentSession (relock l gs) = withLockAt l <$> getCurrentSession gs.
Proof.
  unfold getCurrentSession, relock; simpl.
  destruct (currentSessionId gs) as [sid|]; [|done].
  case_bool_decide; [done|]. apply lookup_fmap.
Qed.

Lemma saveSession_relock l gs k s :
  relock l (saveSession gs k s) = saveSession (relock l gs) k (withLockAt l s).
Proof. unfold relock, saveSession; simpl. by rewrite fmap_insert. Qed.

Lemma swapHandler_relock l gs officer a b force :
  swapHandler (relock l gs) officer a b force =
  (relock l (swapHandler gs officer a b force).1, (swapHandler gs officer a b force).2).
Proof.
  unfold swapHandler. destruct officer; simpl; [|done].
  rewrite getCurrentSession_relock.
  destruct (getCurrentSession gs) as [s|]; simpl; [|done].
  destruct (lastDraft s) as [d|]; simpl; [|done].
  destruct (swapDraft (signups s) d a b force); simpl; try done.
  by rewrite saveSession_relock.
Qed.

Lemma previewHandler_relock rnd l gs officer groupsWanted attempts now :
  previewHandler rnd (relock l gs) officer groupsWanted attempts now =
  (λ x, (relock l x.1, x.2)) <$> previewHandler rnd gs officer groupsWanted attempts now.
Proof.
  unfold previewHandler. destruct officer; simpl; [|done].
  rewrite getCurrentSession_relock.
  destruct (getCurrentSession gs) as [s|]; simpl; [|done].
  destruct (rollGroups rnd (signups s) groupsWanted (attemptsOf attempts)); simpl; [|done].
  by rewrite saveSession_relock.
Qed.

Lemma rollHandler_relock rnd l gs officer groupsWanted attempts :
  rollHandler rnd (relock l gs) officer groupsWanted attempts =
  (λ x, (relock l x.1, x.2)) <$> rollHandler rnd gs officer groupsWanted attempts.
Proof.
  unfold rollHandler. destruct officer; simpl; [|done].
  rewrite getCurrentSession_relock.
  destruct (getCurrentSession gs) as [s|]; simpl; [|done].
  by destruct (rollGroups rnd (signups s) groupsWanted (attemptsOf attempts)).
Qed.

(** C5, as the code has it.  When the session's [lockAt] is a timestamp
    other than 0 and the current time has reached it, the toggle, the leave
    and the class selection are answered with the locked error and persist
    nothing.  The swap, the preview and the roll never look at the lock:
    run on the state with any other deadline [l] in every session they
    give the same reply and the same state up to the deadlines. *)
Theorem lock_gating gs sid session t now :
  getSessionById gs sid = Some session →
  lockAt session = Some t → t ≠ 0 → t ≤ now →
  (∀ wc action payload uid name,
     buttonHandler wc gs "mplus" sid action payload uid name now = (gs, LockedError)) ∧
  (∀ roleKey uid name value,
     classSelectHandler gs "mplus" sid "class" roleKey uid name value now
       = (gs, LockedError)) ∧
  (∀ l officer a b force,
     swapHandler (relock l gs) officer a b force =
       (relock l (swapHandler gs officer a b force).1,
        (swapHandler gs officer a b force).2)) ∧
  (∀ rnd l officer groupsWanted attempts now',
     previewHandler rnd (relock l gs) officer groupsWanted attempts now' =
       (λ x, (relock l x.1, x.2)) <$>
         previewHandler rnd gs officer groupsWanted attempts now') ∧
  (∀ rnd l officer groupsWanted attempts,
     rollHandler rnd (relock l gs) officer groupsWanted attempts =
       (λ x, (relock l x.1, x.2)) <$> rollHandler rnd gs officer groupsWanted attempts).
Proof.
  intros Hs Ht Hnz Hnow.
  assert (locked session now = true) as Hlocked.
  { unfold locked. rewrite Ht. rewrite bool_decide_eq_false_2 by done.
    by rewrite bool_decide_eq_true_2. }
  split_and!.
  - intros. unfold buttonHandler. simpl. by rewrite Hs, Hlocked.
  - intros. unfold classSelectHandler. simpl. by rewrite Hs, Hlocked.
  - intros. apply swapHandler_relock.
  - intros. apply previewHandler_relock.
  - intros. apply rollHandler_relock.
Qed.

Lemma lock_gating_witness :
  (∀ wc action payload uid name,
     buttonHandler wc (sampleGuild (Some 1000)) "mplus" "s1" action payload uid name 1000
       = (sampleGuild (Some 1000), LockedError)) ∧
  (∀ roleKey uid name value,
     classSelectHandler (sampleGuild (Some 1000)) "mplus" "s1" "class" roleKey uid name
       value 1000 = (sampleGuild (Some 1000), LockedError)) ∧
  swapHandler (relock None (sampleGuild (Some 1000))) true "u1" "u3" true =
    (relock None (swapHandler (sampleGuild (Some 1000)) true "u1" "u3" true).1,
     (swapHandler (sampleGuild (Some 1000)) true "u1" "u3" true).2).
Proof.
  destruct (lock_gating (sampleGuild (Some 1000)) "s1" (sampleSession (Some 1000))
              1000 1000) as (Hb & Hc & Hs & _).
  - by vm_compute.
  - reflexivity.
  - lia.
  - lia.
  - split; [exact Hb|]. split; [exact Hc|]. apply Hs.
Defined.

(** C5 as stated fails for a deadline of 0, which [setlock] stores when it
    is run at a full minute with the negative number of minutes that
    leads back to the epoch: [lockAt] is then not [null] and every later
    time is past it, yet the toggle is applied, since 0 is falsy. *)
Lemma zero_deadline_not_locked :
  ∃ gs session,
    setlockHandler (sampleGuild None) true (-30000000) 1800000000000
      = (gs, LockUpdated 0) ∧
    getSessionById gs "s1" = Some session ∧
    lockAt session = Some 0 ∧ 0 ≤ 1800000000005 ∧
    (buttonHandler true gs "mplus" "s1" "toggle" "HEAL" "u3" "Cy" 1800000000005).2
      = Updated ["DPS"; "HEAL"].
Proof. eexists _, _. split; [by vm_compute|]. by vm_compute. Qed.

Lemma getSessionById_save gs sid s' sid' :
  getSessionById (saveSession gs sid s') sid' =
    if decide (sid' = sid) then Some s' else getSessionById gs sid'.
Proof.
  unfold getSessionById, saveSession. simpl. case_decide as H.
  - subst. by rewrite lookup_insert_eq.
  - by rewrite lookup_insert_ne.
Qed.

Lemma rolesOf_session gs sid session uid :
  getSessionById gs sid = Some session →
  rolesOf gs sid uid = JSSet.ofArray (default [] (roles <$> signups session !! uid)).
Proof.
  unfold rolesOf, getSessionById. intros ->. simpl.
  by destruct (signups session !! uid).
Qed.

(** One press of a toggle button on an existing session: refused when the
    lock guard fires, else the role is flipped and the deadline stays. *)
Lemma toggle_locked wc gs sid session role uid name now :
  getSessionById gs sid = Some session → locked session now = true →
  buttonHandler wc gs "mplus" sid "toggle" role uid name now = (gs, LockedError).
Proof. intros Hs Hl. unfold buttonHandler. by rewrite Hs, Hl. Qed.

Lemma toggle_accepted wc gs sid session role uid name now :
  getSessionById gs sid = Some session → locked session now = false →
  ∃ gs' rs session',
    buttonHandler wc gs "mplus" sid "toggle" role uid name now = (gs', Updated rs) ∧
    getSessionById gs' sid = Some session' ∧
    lockAt session' = lockAt session ∧
    ∀ x, x ∈ rolesOf gs' sid uid ↔
         (x ≠ role ∧ x ∈ rolesOf gs sid uid) ∨ (x = role ∧ role ∉ rolesOf gs sid uid).
Proof.
  intros Hs Hl. unfold buttonHandler. rewrite Hs, Hl.
  change (negb (bool_decide ("mplus" = "mplus"))) with false.
  change (bool_decide ("toggle" = "toggle")) with true. cbv beta iota zeta.
  eexists _, _, _. split; [done|].
  split; [by rewrite getSessionById_save, decide_True|]. split; [done|].
  intros x. erewrite rolesOf_session by (by rewrite getSessionById_save, decide_True).
  rewrite (rolesOf_session gs sid session uid Hs).
  simpl. rewrite lookup_insert_eq. simpl.
  by rewrite !JSSet_elem_of_ofArray, elem_of_toggleRoles, ensureSignup_roles.
Qed.

Lemma locked_lockAt s s' now : lockAt s' = lockAt s → locked s' now = locked s now.
Proof. unfold locked. by intros ->. Qed.

(** C9, as the code has it.  In both variants of the handler every press
    of a toggle button passes the lock guard first.  On an existing
    session, when the guard answers the two presses alike (both accepted
    or both refused) the participant's role set after them is what it was
    before: a role is in it exactly when it was.  (The array may come back
    reordered.)  When the guard answers them differently the role stays
    flipped; in particular, when the deadline is reached between the two
    presses the first is applied and the second is answered with the
    locked error.  For a session id that no longer exists nothing
    changes. *)
Theorem toggle_twice wc gs sid role uid name1 name2 now1 now2 :
  let first := buttonHandler wc gs "mplus" sid "toggle" role uid name1 now1 in
  let second := buttonHandler wc first.1 "mplus" sid "toggle" role uid name2 now2 in
  (getSessionById gs sid = None → second.1 = gs) ∧
  ∀ session, getSessionById gs sid = Some session →
    (locked session now1 = locked session now2 →
     ∀ r, r ∈ rolesOf second.1 sid uid ↔ r ∈ rolesOf gs sid uid) ∧
    (locked session now1 ≠ locked session now2 →
     role ∈ rolesOf second.1 sid uid ↔ role ∉ rolesOf gs sid uid) ∧
    (locked session now1 = false → locked session now2 = true →
     (∃ rs, first.2 = Updated rs) ∧ second = (first.1, LockedError)).
Proof.
  intros first second. split.
  { intros Hn. unfold second, first, buttonHandler. rewrite Hn. simpl. by rewrite Hn. }
  intros session Hs. unfold second, first.
  destruct (locked session now1) eqn:L1.
  - rewrite (toggle_locked wc gs sid session role uid name1 now1 Hs L1). cbn [fst snd].
    destruct (locked session now2) eqn:L2.
    + rewrite (toggle_locked wc gs sid session role uid name2 now2 Hs L2). cbn [fst].
      split; [done|]. split; done.
    + destruct (toggle_accepted wc gs sid session role uid name2 now2 Hs L2)
        as (gs2 & rs2 & s2 & -> & _ & _ & Hiff). cbn [fst].
      split; [done|]. split; [|done]. intros _. rewrite Hiff.
      destruct (decide (role ∈ rolesOf gs sid uid)); naive_solver.
  - destruct (toggle_accepted wc gs sid session role uid name1 now1 Hs L1)
      as (gs1 & rs1 & s1 & -> & Hs1 & Hl1 & Hiff1). cbn [fst snd].
    pose proof (locked_lockAt session s1 now2 Hl1) as Hlk.
    destruct (locked session now2) eqn:L2.
    + rewrite (toggle_locked wc gs1 sid s1 role uid name2 now2 Hs1 Hlk). cbn [fst].
      split; [done|]. split.
      * intros _. rewrite Hiff1. destruct (decide (role ∈ rolesOf gs sid uid)); naive_solver.
      * intros _ _. split; [by eexists|done].
    + destruct (toggle_accepted wc gs1 sid s1 role uid name2 now2 Hs1 Hlk)
        as (gs2 & rs2 & s2 & -> & _ & _ & Hiff2). cbn [fst].
      split; [|split; done]. intros _ r. rewrite Hiff2, !Hiff1.
      destruct (decide (r = role)) as [->|?];
        destruct (decide (role ∈ rolesOf gs sid uid)); naive_solver.
Qed.

Lemma toggle_twice_witness :
  "TANK" ∈ rolesOf
     (buttonHandler true
        (buttonHandler true (sampleGuild None) "mplus" "s1" "toggle" "TANK" "u1" "Ana" 5).1
        "mplus" "s1" "toggle" "TANK" "u1" "Ana" 6).1 "s1" "u1"
  ↔ "TANK" ∈ rolesOf (sampleGuild None) "s1" "u1".
Proof.
  destruct (toggle_twice true (sampleGuild None) "s1" "TANK" "u1" "Ana" "Ana" 5 6)
    as [_ H].
  destruct (H (sampleSession None)) as [H1 _]; [by vm_compute|].
  apply H1. by vm_compute.
Defined.

(** The claim as stated fails when the deadline falls between the two
    presses: with [lockAt = 1000] the press at 999 removes TANK, the press
    at 1000 is answered 'Signups are locked.', and the role set has gone
    from TANK, DPS to DPS. *)
Lemma toggle_twice_lock_between :
  ∃ gs1,
    buttonHandler true (sampleGuild (Some 1000)) "mplus" "s1" "toggle" "TANK" "u1" "Ana" 999
      = (gs1, Updated ["DPS"]) ∧
    buttonHandler true gs1 "mplus" "s1" "toggle" "TANK" "u1" "Ana" 1000
      = (gs1, LockedError) ∧
    rolesOf (sampleGuild (Some 1000)) "s1" "u1" = ["TANK"; "DPS"] ∧
    rolesOf gs1 "s1" "u1" = ["DPS"].
Proof.
  exists (buttonHandler true (sampleGuild (Some 1000)) "mplus" "s1" "toggle" "TANK"
            "u1" "Ana" 999).1.
  by vm_compute.
Qed.

(** C10, as the code has it.  A rejected selection persists nothing.  On a
    session that exists and is not locked the handler decides in this
    order: a role that is not in the participant's role set is answered
    with the not-eligible error, whatever the value, 'UNSET' included; for
    a role in the set, a value other than 'UNSET' that is not in the role's
    class table is answered with the invalid-class error; 'UNSET' is
    accepted for every role in the set and stores [null]; a value of the
    table is accepted and stored. *)
Theorem classSelect_outcomes gs sid roleKey uid name value now :
  let res := classSelectHandler gs "mplus" sid "class" roleKey uid name value now in
  ((∀ c, res.2 ≠ ClassUpdated c) → res.1 = gs) ∧
  ∀ session,
    getSessionById gs sid = Some session → locked session now = false →
    (roleKey ∉ rolesOf gs sid uid → res = (gs, RoleNotEligible)) ∧
    (roleKey ∈ rolesOf gs sid uid → value ≠ "UNSET" → value ∉ ROLE_CLASSES roleKey →
     res = (gs, InvalidSubAttribute)) ∧
    (roleKey ∈ rolesOf gs sid uid → value = "UNSET" →
     res.2 = ClassUpdated None ∧ classOf res.1 sid uid roleKey = Some None) ∧
    (roleKey ∈ rolesOf gs sid uid → value ≠ "UNSET" → value ∈ ROLE_CLASSES roleKey →
     res.2 = ClassUpdated (Some value) ∧
     classOf res.1 sid uid roleKey = Some (Some value)).
Proof.
  intros res. subst res. unfold classSelectHandler, getSessionById.
  change (negb (bool_decide ("mplus" = "mplus")) || negb (bool_decide ("class" = "class")))
    with false.
  cbv beta iota zeta. split.
  { destruct (sessions gs !! sid) as [s|]; [|done].
    destruct (locked s now); [done|].
    destruct (negb (JSSet.has roleKey _)); [done|].
    destruct (negb (bool_decide (value = "UNSET")) && _); [done|].
    cbn [fst snd]. intros H.
    by destruct (H (if bool_decide (value = "UNSET") then None else Some value)). }
  intros s Hs Hl. rewrite Hs, Hl.
  assert (JSSet.has roleKey (JSSet.ofArray (roles (ensureSignup true (signups s) uid name)))
          = bool_decide (roleKey ∈ rolesOf gs sid uid)) as ->.
  { unfold JSSet.has. apply bool_decide_ext. rewrite ensureSignup_roles.
    unfold rolesOf. rewrite Hs. simpl. by destruct (signups s !! uid). }
  split_and!.
  - intros Hr. by rewrite bool_decide_eq_false_2.
  - intros Hr Hv Ht. rewrite bool_decide_eq_true_2 by done. cbn [negb].
    rewrite (bool_decide_eq_false_2 (value = "UNSET")) by done.
    unfold JSSet.has. by rewrite bool_decide_eq_false_2.
  - intros Hr ->. rewrite bool_decide_eq_true_2 by done. cbn [negb].
    rewrite (bool_decide_eq_true_2 ("UNSET" = "UNSET")) by done. cbn [negb andb fst snd].
    split; [done|]. unfold classOf, saveSession, withSignups. cbn [sessions signups classes].
    rewrite lookup_insert_eq. cbn [mbind option_bind signups].
    rewrite lookup_insert_eq. cbn [mbind option_bind classes].
    by rewrite lookup_insert_eq.
  - intros Hr Hv Ht. rewrite bool_decide_eq_true_2 by done. cbn [negb].
    rewrite (bool_decide_eq_false_2 (value = "UNSET")) by done.
    unfold JSSet.has. rewrite bool_decide_eq_true_2 by done. cbn [negb andb fst snd].
    split; [done|]. unfold classOf, saveSession, withSignups. cbn [sessions signups classes].
    rewrite lookup_insert_eq. cbn [mbind option_bind signups].
    rewrite lookup_insert_eq. cbn [mbind option_bind classes].
    by rewrite lookup_insert_eq.
Qed.

Lemma classSelect_outcomes_witness :
  (classSelectHandler (sampleGuild None) "mplus" "s1" "class" "TANK" "u1" "Ana" "DRUID" 5).2
    = ClassUpdated (Some "DRUID") ∧
  classOf
    (classSelectHandler (sampleGuild None) "mplus" "s1" "class" "TANK" "u1" "Ana" "DRUID" 5).1
    "s1" "u1" "TANK" = Some (Some "DRUID").
Proof.
  destruct (classSelect_outcomes (sampleGuild None) "s1" "TANK" "u1" "Ana" "DRUID" 5)
    as [_ H].
  destruct (H (sampleSession None)) as (_ & _ & _ & Hok); [by vm_compute..|].
  apply Hok.
  - apply (bool_decide_unpack _). by vm_compute.
  - discriminate.
  - apply (bool_decide_unpack _). by vm_compute.
Defined.

(** C10 as stated fails for 'UNSET' on a role the participant has not
    picked: [u3] signed up as dps only, and clearing the HEAL class is
    answered with the not-eligible error, not accepted. *)
Lemma classSelect_unset_refused :
  locked (sampleSession None) 5 = false ∧
  classSelectHandler (sampleGuild None) "mplus" "s1" "class" "HEAL" "u3" "Cy" "UNSET" 5
    = (sampleGuild None, RoleNotEligible).
Proof. by vm_compute. Qed.

(** * Further properties of the code *)

(** ** The solver's helpers *)

Lemma shuffleFrom_rng rnd {A} i (arr : list A) k :
  (shuffleFrom rnd i arr k).2 = (k + i)%nat.
Proof.
  revert arr k. induction i as [|i IH]; intros arr k; simpl; [lia|].
  rewrite IH. lia.
Qed.

(** X1.  [shuffle] returns a permutation of its argument and calls
    [Math.random()] once per element but the first. *)
Theorem shuffle_permutes rnd {A} (arr : list A) k :
  (shuffle rnd arr k).1 ≡ₚ arr ∧
  (shuffle rnd arr k).2 = (k + (length arr - 1))%nat.
Proof. split; [apply shuffle_Permutation|apply shuffleFrom_rng]. Qed.

(** X2.  [pick(role)] returns [null], without a random draw, exactly when
    every player of the pool with that role is used; otherwise it returns
    an unused player of the pool with the role, after one draw. *)
Theorem pick_sound_complete rnd pool role st :
  match pick rnd pool role st with
  | (Some p, k) =>
      p ∈ pool ∧ role ∈ p_roles p ∧ (p_id p ∉ used st) ∧ k = S (rng st)
  | (None, k) =>
      (∀ p, p ∈ pool → role ∈ p_roles p → p_id p ∈ used st) ∧ k = rng st
  end.
Proof.
  destruct (pick rnd pool role st) as [[p|] k] eqn:Hpick.
  - destruct (pick_Some rnd pool role st p k Hpick) as (? & ? & ?).
    split_and!; try done. unfold pick in Hpick.
    by destruct (filter _ pool); simplify_eq.
  - unfold pick in Hpick.
    destruct (filter _ pool) as [|c cs] eqn:Hc.
    + simplify_eq. split; [|done]. intros p Hp Hr.
      destruct (decide (p_id p ∈ used st)) as [|Hn]; [done|].
      assert (p ∈ filter (λ p, role ∈ p_roles p ∧ p_id p ∉ used st) pool) as Hin
        by by apply list_elem_of_filter.
      rewrite Hc in Hin. by apply elem_of_nil in Hin.
    + exfalso. injection Hpick as Hl _.
      apply lookup_ge_None in Hl.
      pose proof (Nat.mod_upper_bound (rnd (rng st)) (length (c :: cs))) as Hb.
      simpl in *. lia.
Qed.

(** ** The shape of the solver's result *)

Lemma rollGroups_shape rnd sg desiredGroups attempts :
  ∃ r, rollGroups rnd sg desiredGroups attempts = Some r ∧
       (effectiveTarget desiredGroups sg ≤ 0 → r = cannotForm (playersOf sg)) ∧
       Z.of_nat (length (r_groups r)) ≤ Z.max 0 (effectiveTarget desiredGroups sg) ∧
       (reason r = None →
        Z.of_nat (length (r_groups r)) = effectiveTarget desiredGroups sg ∧
        Forall fullGroup (r_groups r) ∧
        (length (r_bench r) + 5 * length (r_groups r))%nat = size sg).
Proof.
  destruct (rollGroups_cases rnd sg desiredGroups attempts)
    as [[_ ->]|(HT & outs & _ & _ & Hall & ->)].
  { eexists. split; [done|]. split; [done|]. simpl. split; [lia|done]. }
  rewrite targetGroupsOf_effective in HT.
  destruct (firstCompleted outs) as [b|] eqn:Hb.
  2:{ eexists. split; [done|]. split; [lia|]. simpl. split; [lia|done]. }
  eexists. split; [done|]. split; [lia|]. cbn [r_groups r_bench].
  destruct (firstCompleted_Good _ _ _ _ Hall Hb) as [Hlen Hfull _ _ Hids].
  rewrite targetGroupsOf_effective in *.
  split; [rewrite Hlen; lia|]. intros _.
  split; [rewrite Hlen; lia|]. split; [done|].
  apply Permutation_length in Hids.
  rewrite length_app, !length_fmap, placed_length_full in Hids by done.
  unfold playersOf in Hids. rewrite length_fmap, length_map_to_list in Hids. lia.
Qed.

(** X3.  A result with [reason = null] has exactly as many groups as the
    effective target, each with its five slots filled, and benches
    everybody else: bench size plus five per group is the roster size. *)
Theorem rollGroups_success_shape rnd sg desiredGroups attempts :
  ∃ r, rollGroups rnd sg desiredGroups attempts = Some r ∧
       (reason r = None →
        Z.of_nat (length (r_groups r)) = effectiveTarget desiredGroups sg ∧
        Forall fullGroup (r_groups r) ∧
        (length (r_bench r) + 5 * length (r_groups r))%nat = size sg).
Proof.
  destruct (rollGroups_shape rnd sg desiredGroups attempts) as (r & Hr & _ & _ & H).
  by exists r.
Qed.

Lemma rollGroups_success_shape_witness :
  ∃ r, rollGroups constRnd sampleRoster None 200 = Some r ∧
       Z.of_nat (length (r_groups r)) = effectiveTarget None sampleRoster ∧
       Forall fullGroup (r_groups r) ∧
       (length (r_bench r) + 5 * length (r_groups r))%nat = size sampleRoster.
Proof.
  destruct (rollGroups_success_shape constRnd sampleRoster None 200) as (r & Hr & H).
  exists r. split; [exact Hr|]. apply H.
  pose proof sample_run_reason as Hs. rewrite Hr in Hs. by injection Hs.
Defined.

(** X4.  The result has no group exactly when it carries a reason, and
    then its bench is the whole roster: a result without groups always
    says why. *)
Theorem rollGroups_reason_iff_no_groups rnd sg desiredGroups attempts :
  ∃ r, rollGroups rnd sg desiredGroups attempts = Some r ∧
       (r_groups r = [] ↔ is_Some (reason r)) ∧
       (is_Some (reason r) → r_bench r = playersOf sg).
Proof.
  destruct (rollGroups_cases rnd sg desiredGroups attempts)
    as [[_ ->]|(HT & outs & _ & _ & Hall & ->)].
  { eexists. split; [done|]. simpl. split; [|done]. split; [by eexists|done]. }
  destruct (firstCompleted outs) as [b|] eqn:Hb.
  2:{ eexists. split; [done|]. simpl. split; [|done]. split; [by eexists|done]. }
  eexists. split; [done|]. simpl.
  destruct (firstCompleted_Good _ _ _ _ Hall Hb) as [Hlen _ _ _ _].
  split; [|by intros [? ?]]. split; [|by intros [? ?]].
  intros Hnil. rewrite Hnil in Hlen. simpl in Hlen. lia.
Qed.

Lemma attemptOutcomes_more rnd players G n m k outs :
  NoDup (p_id <$> players) →
  attemptOutcomes rnd players G n k = Some outs →
  ∃ rest, attemptOutcomes rnd players G (n + m) k = Some (outs ++ rest).
Proof.
  intros Hnd. revert k outs. induction n as [|n IH]; intros k outs H; simpl in *.
  - simplify_eq.
    destruct (attemptLoop_first rnd players G Hnd m k) as (rest & -> & _). by exists rest.
  - destruct (attempt rnd players G k) as [[ob k']|]; [|done].
    destruct (attemptOutcomes rnd players G n k') as [outs'|] eqn:Ho; [|done].
    simplify_eq/=. destruct (IH k' outs' Ho) as (rest & ->). by exists rest.
Qed.

Lemma firstCompleted_app outs rest b :
  firstCompleted outs = Some b → firstCompleted (outs ++ rest) = Some b.
Proof.
  unfold firstCompleted. induction outs as [|[b0|] outs IH]; simpl; [done|done|].
  apply IH.
Qed.

(** X5.  Raising the attempt budget never changes a successful result: the
    loop stops at the first attempt that completes. *)
Theorem rollGroups_more_attempts rnd sg desiredGroups attempts attempts' r :
  attempts ≤ attempts' →
  rollGroups rnd sg desiredGroups attempts = Some r → reason r = None →
  rollGroups rnd sg desiredGroups attempts' = Some r.
Proof.
  intros Hle Hr Hnone.
  destruct (rollGroups_cases rnd sg desiredGroups attempts)
    as [[_ H]|(HT & outs & Houts & _ & _ & H)]; rewrite H in Hr; simplify_eq.
  destruct (firstCompleted outs) as [b|] eqn:Hb; [|done].
  destruct (rollGroups_cases rnd sg desiredGroups attempts')
    as [[? _]|(_ & outs' & Houts' & _ & _ & ->)]; [lia|].
  destruct (attemptOutcomes_more rnd (playersOf sg)
              (Z.to_nat (targetGroupsOf desiredGroups (playersOf sg)))
              (Z.to_nat attempts) (Z.to_nat attempts' - Z.to_nat attempts) 0 outs
              (playersOf_NoDup sg) Houts) as (rest & Hmore).
  replace (Z.to_nat attempts + (Z.to_nat attempts' - Z.to_nat attempts))%nat
    with (Z.to_nat attempts') in Hmore by lia.
  rewrite Hmore in Houts'. simplify_eq.
  by rewrite (firstCompleted_app outs rest b Hb).
Qed.

Lemma rollGroups_more_attempts_witness :
  rollGroups constRnd sampleRoster None 200 = rollGroups constRnd sampleRoster None 1.
Proof.
  destruct (rollGroups constRnd sampleRoster None 1) as [r|] eqn:Hr.
  - apply (rollGroups_more_attempts constRnd sampleRoster None 1 200 r); [lia|exact Hr|].
    assert (reason <$> rollGroups constRnd sampleRoster None 1 = Some None) as Hs
      by by vm_compute.
    rewrite Hr in Hs. by injection Hs.
  - exfalso. vm_compute in Hr. discriminate Hr.
Defined.

(** ** When the first attempt is bound to succeed *)

Lemma unused_count (l : list Player) (u : gset string) :
  NoDup (p_id <$> l) →
  (length l ≤ length (filter (λ p, p_id p ∉ u) l) + size u)%nat.
Proof.
  intros Hnd.
  assert (length l = length (filter (λ p, p_id p ∉ u) l)
                     + length (filter (λ p, p_id p ∈ u) l))%nat as ->.
  { clear Hnd. induction l as [|a l IH]; [done|].
    destruct (decide (p_id a ∈ u)).
    - rewrite filter_cons_False, filter_cons_True by tauto. simpl. lia.
    - rewrite filter_cons_True, filter_cons_False by tauto. simpl. lia. }
  apply Nat.add_le_mono_l.
  rewrite <- (length_fmap p_id). unfold size, set_size. simpl.
  apply submseteq_length, NoDup_submseteq.
  - apply (sublist_NoDup _ (p_id <$> l)); [done|]. apply fmap_sublist, sublist_filter.
  - intros i (p & -> & Hp%list_elem_of_filter)%list_elem_of_fmap.
    apply elem_of_elements. tauto.
Qed.

Lemma pick_available rnd pool role st :
  NoDup (p_id <$> pool) →
  (size (used st) < countEligible role pool)%nat →
  ∃ p, pick rnd pool role st = (Some p, S (rng st)).
Proof.
  intros Hnd Hlt. unfold pick.
  assert (0 < length (filter (λ p, role ∈ p_roles p ∧ p_id p ∉ used st) pool))%nat as Hpos.
  { pose proof (unused_count (filter (λ p, role ∈ p_roles p) pool) (used st)) as Hc.
    rewrite list_filter_filter in Hc. unfold countEligible in Hlt.
    rewrite (list_filter_iff (λ p, (p_id p ∉ used st) ∧ role ∈ p_roles p)
               (λ p, role ∈ p_roles p ∧ p_id p ∉ used st)) in Hc by (intros; tauto).
    assert (NoDup (p_id <$> filter (λ p, role ∈ p_roles p) pool)) as Hndf.
    { apply (sublist_NoDup _ (p_id <$> pool)); [done|].
      apply fmap_sublist, sublist_filter. }
    specialize (Hc Hndf). lia. }
  destruct (filter _ pool) as [|c cs] eqn:Hc; [simpl in Hpos; lia|].
  destruct (lookup_lt_is_Some_2 (c :: cs)
              (rnd (rng st) `mod` length (c :: cs))%nat) as [p Hp].
  { apply Nat.mod_upper_bound. simpl. lia. }
  exists p. by rewrite Hp.
Qed.

Lemma size_add_le (i : string) (u : gset string) : (size ({[i]} ∪ u) ≤ S (size u))%nat.
Proof.
  rewrite size_union_alt, size_singleton.
  assert (size (u ∖ {[i]}) ≤ size u)%nat; [|lia].
  apply subseteq_size, subseteq_difference_l. done.
Qed.

Lemma tanksHeals_complete rnd pool n g st :
  NoDup (p_id <$> pool) →
  (g + n ≤ length (grps st))%nat → (size (used st) ≤ 2 * g)%nat →
  (2 * (g + n) ≤ countEligible "TANK" pool)%nat →
  (2 * (g + n) ≤ countEligible "HEAL" pool)%nat →
  (∀ j gr, (j < g)%nat → grps st !! j = Some gr →
           is_Some (g_tank gr) ∧ is_Some (g_heal gr)) →
  let st' := tanksHeals rnd pool n g st in
  (size (used st') ≤ 2 * (g + n))%nat ∧
  ∀ j gr, (j < g + n)%nat → grps st' !! j = Some gr →
          is_Some (g_tank gr) ∧ is_Some (g_heal gr).
Proof.
  intros Hnd. revert g st.
  induction n as [|n IH]; intros g st Hlen Hsz HT HH Hdone; simpl.
  { rewrite Nat.add_0_r. done. }
  destruct (pick_available rnd pool "TANK" st Hnd) as [t ->]; [lia|].
  pose proof (size_add_le (p_id t) (used st)) as Hs1.
  destruct (pick_available rnd pool "HEAL"
              (mkSt ({[p_id t]} ∪ used st) (alter (setTank t) g (grps st)) (S (rng st)))
              Hnd) as [h ->]; [simpl; lia|].
  cbn [used grps rng].
  pose proof (size_add_le (p_id h) ({[p_id t]} ∪ used st)) as Hs2.
  replace (g + S n)%nat with (S g + n)%nat by lia.
  apply IH; cbn [used grps]; rewrite ?length_alter; try lia.
  intros j gr Hj Hgr. destruct (decide (j = g)) as [->|Hne].
  - rewrite !list_lookup_alter_eq in Hgr.
    destruct (grps st !! g) as [gr0|]; simplify_eq/=. split; by eexists.
  - rewrite !list_lookup_alter_ne in Hgr by done. apply (Hdone j); [lia|done].
Qed.

Lemma no_missing gs :
  (∀ j gr, gs !! j = Some gr → is_Some (g_tank gr) ∧ is_Some (g_heal gr)) →
  existsb missingTankOrHeal gs = false.
Proof.
  intros H. destruct (existsb missingTankOrHeal gs) eqn:He; [|done].
  apply existsb_exists in He as (gr & Hin & Hm).
  apply list_elem_of_In, list_elem_of_lookup_1 in Hin as [j Hj].
  destruct (H j gr Hj) as [Ht Hh]. unfold missingTankOrHeal in Hm.
  by rewrite !bool_decide_eq_true_2 in Hm.
Qed.

Lemma fillDps_true rnd dpsCandidates fuel gi si st :
  NoDup (p_id <$> dpsCandidates) →
  (si ≤ 3)%nat → (1 ≤ fuel)%nat →
  (4 * (length (grps st) - gi) + 1 ≤ fuel + si)%nat →
  (3 * (length (grps st) - gi) - si
     ≤ length (filter (λ p, p_id p ∉ used st) dpsCandidates))%nat →
  ∃ st', fillDps rnd fuel dpsCandidates gi si st = Some (true, st').
Proof.
  intros Hnd. revert gi si st.
  induction fuel as [|fuel IH]; intros gi si st Hsi Hf1 Hf Hc; [lia|].
  cbn [fillDps].
  case_bool_decide as Hend; [by eexists|].
  case_bool_decide as Hslot.
  { assert (si = 3%nat) as -> by lia. apply IH; lia. }
  match goal with
  | |- context [shuffle rnd ?l ?k] =>
      pose proof (shuffle_Permutation rnd l k) as Hperm;
      destruct (shuffle rnd l k) as [top k'] eqn:Htop
  end.
  cbn [fst] in Hperm.
  destruct top as [|p top].
  { apply Permutation_length in Hperm. rewrite length_take in Hperm.
    pose proof (Permutation_length
                  (sortBySize_Permutation (filter (λ p, p_id p ∉ used st) dpsCandidates))).
    change (length (@nil Player)) with 0%nat in Hperm. lia. }
  assert (p ∈ dpsCandidates ∧ p_id p ∉ used st) as [Hp Hu].
  { assert (p ∈ p :: top) as Hin by by left.
    rewrite Hperm in Hin. apply subseteq_take in Hin.
    rewrite sortBySize_Permutation in Hin. apply list_elem_of_filter in Hin. tauto. }
  cbn [tryEach used grps rng].
  destruct (IH gi (si + 1)%nat
              (mkSt ({[p_id p]} ∪ used st) (alter (pushDps p) gi (grps st)) k'))
    as [st' ->]; cbn [used grps]; rewrite ?length_alter; try lia.
  - pose proof (unused_count (filter (λ q, p_id q ∉ used st) dpsCandidates) {[p_id p]})
      as Hcount.
    rewrite list_filter_filter, size_singleton in Hcount.
    rewrite (list_filter_iff (λ q, (p_id q ∉ ({[p_id p]} : gset string)) ∧ p_id q ∉ used st)
               (λ q, p_id q ∉ {[p_id p]} ∪ used st)) in Hcount
      by (intros; by rewrite not_elem_of_union).
    assert (NoDup (p_id <$> filter (λ q, p_id q ∉ used st) dpsCandidates)) as Hndf.
    { apply (sublist_NoDup _ (p_id <$> dpsCandidates)); [done|].
      apply fmap_sublist, sublist_filter. }
    specialize (Hcount Hndf). lia.
  - by eexists.
Qed.

Lemma attempt_succeeds rnd players G k :
  NoDup (p_id <$> players) →
  (2 * G ≤ countEligible "TANK" players)%nat →
  (2 * G ≤ countEligible "HEAL" players)%nat →
  (5 * G ≤ countEligible "DPS" players)%nat →
  ∃ b k', attempt rnd players G k = Some (Some b, k').
Proof.
  intros Hnd HT HH HD. unfold attempt, tanksHealsPhase.
  pose proof (shuffle_Permutation rnd players k) as Hpool.
  destruct (shuffle rnd players k) as [pool k1]. cbn [fst] in Hpool.
  assert (∀ role, countEligible role pool = countEligible role players) as Hcnt.
  { intros role. unfold countEligible. by rewrite Hpool. }
  assert (NoDup (p_id <$> pool)) as Hndp by by rewrite Hpool.
  rewrite length_replicate.
  destruct (tanksHeals_Inv rnd pool G 0 (mkSt ∅ (replicate G emptyGroup) k1))
    as (_ & Hlen & _); cbn [used grps].
  { rewrite length_replicate. lia. }
  { apply Inv_empty. }
  { intros j gr _ Hj%lookup_replicate_1. by destruct Hj as [-> _]. }
  { apply Forall_forall. by intros g ->%elem_of_replicate_inv. }
  destruct (tanksHeals_complete rnd pool G 0 (mkSt ∅ (replicate G emptyGroup) k1) Hndp)
    as [Hsz Hall]; cbn [used grps].
  { rewrite length_replicate. lia. }
  { rewrite size_empty. lia. }
  { rewrite Hcnt. lia. }
  { rewrite Hcnt. lia. }
  { intros j gr Hj. lia. }
  cbn [grps] in Hlen. rewrite length_replicate in Hlen.
  set (st := tanksHeals rnd pool G 0 _) in *.
  rewrite no_missing.
  2:{ intros j gr Hj. apply (Hall j); [|done]. apply lookup_lt_Some in Hj. lia. }
  destruct (fillDps_true rnd (filter (λ p, "DPS" ∈ p_roles p) pool) (4 * G + 1) 0 0 st)
    as [st' ->]; try lia.
  - apply (sublist_NoDup _ (p_id <$> pool)); [done|]. apply fmap_sublist, sublist_filter.
  - pose proof (unused_count (filter (λ p, "DPS" ∈ p_roles p) pool) (used st)) as Hc.
    assert (NoDup (p_id <$> filter (λ p, "DPS" ∈ p_roles p) pool)) as Hndf.
    { apply (sublist_NoDup _ (p_id <$> pool)); [done|].
      apply fmap_sublist, sublist_filter. }
    specialize (Hc Hndf). fold (countEligible "DPS" pool) in Hc. rewrite Hcnt in Hc.
    simpl in Hsz. lia.
  - by eexists _, _.
Qed.

(** X6.  With at least twice as many tank-capable and twice as many
    heal-capable players as groups to form, and five dps-capable players
    per group, the first attempt completes whatever the draws: a positive
    attempt budget then always gives groups. *)
Theorem rollGroups_enough_players rnd sg desiredGroups attempts :
  0 < effectiveTarget desiredGroups sg → 0 < attempts →
  2 * effectiveTarget desiredGroups sg ≤ Z.of_nat (size (eligible "TANK" sg)) →
  2 * effectiveTarget desiredGroups sg ≤ Z.of_nat (size (eligible "HEAL" sg)) →
  5 * effectiveTarget desiredGroups sg ≤ Z.of_nat (size (eligible "DPS" sg)) →
  ∃ r, rollGroups rnd sg desiredGroups attempts = Some r ∧ reason r = None.
Proof.
  intros HT Ha Htank Hheal Hdps.
  destruct (rollGroups_cases rnd sg desiredGroups attempts)
    as [[H0 _]|(_ & outs & Houts & _ & _ & ->)].
  { rewrite targetGroupsOf_effective in H0. lia. }
  rewrite targetGroupsOf_effective in Houts.
  destruct (Z.to_nat attempts) as [|n] eqn:Hn; [lia|]. simpl in Houts.
  destruct (attempt_succeeds rnd (playersOf sg)
              (Z.to_nat (effectiveTarget desiredGroups sg)) 0 (playersOf_NoDup sg))
    as (b & k' & Hb); rewrite ?countEligible_size; try lia.
  rewrite Hb in Houts.
  destruct (attemptOutcomes rnd (playersOf sg) _ n k') as [outs'|]; [|done].
  simplify_eq/=. by eexists.
Qed.

Lemma rollGroups_enough_players_witness :
  ∃ r, rollGroups constRnd sampleRoster None 1 = Some r ∧ reason r = None.
Proof.
  apply (rollGroups_enough_players constRnd sampleRoster None 1);
    apply (bool_decide_unpack _); by vm_compute.
Defined.

(** ** The signup message *)

Lemma countEligible_values role sg :
  countEligible role (playersOf sg)
  = length (filter (λ s, role ∈ roles s) ((map_to_list sg).*2)).
Proof.
  unfold countEligible, playersOf.
  induction (map_to_list sg) as [|e l IH]; [done|].
  rewrite !fmap_cons.
  destruct (decide (role ∈ roles e.2)) as [Hr|Hr].
  - rewrite !filter_cons_True; [simpl; by rewrite IH|done|].
    simpl. by apply JSSet_elem_of_ofArray.
  - rewrite !filter_cons_False; [done|done|].
    simpl. by rewrite JSSet_elem_of_ofArray.
Qed.

(** X7.  The "Possible Groups" number of the signup message is the ceiling
    the solver works with: a roll without a desired count never forms more
    groups than shown, forms exactly that many when it succeeds, and forms
    none (with the counts as reason) when the number is 0. *)
Theorem possibleGroups_is_ceiling rnd sg attempts :
  possibleGroups sg = feasibilityCeiling sg ∧
  ∃ r, rollGroups rnd sg None attempts = Some r ∧
       Z.of_nat (length (r_groups r)) ≤ possibleGroups sg ∧
       (reason r = None → Z.of_nat (length (r_groups r)) = possibleGroups sg) ∧
       (possibleGroups sg = 0 → r = cannotForm (playersOf sg)).
Proof.
  assert (possibleGroups sg = feasibilityCeiling sg) as Heq.
  { rewrite <- maxByCounts_ceiling. unfold possibleGroups, maxByCounts.
    rewrite !countEligible_values. unfold playersOf. by rewrite length_fmap. }
  split; [done|]. rewrite Heq.
  destruct (rollGroups_shape rnd sg None attempts) as (r & Hr & H0 & Hle & Hshape).
  exists r. split; [done|].
  pose proof (feasibilityCeiling_nonneg sg). simpl in *.
  split; [lia|]. split.
  - intros Hnone. by destruct (Hshape Hnone) as [-> _].
  - intros Hz. apply H0. lia.
Qed.

(** ** The draft and its positions *)

Lemma groupIds_locs c bn pre l :
  l ≫= groupIds =
  omap (idAt (mkDraft c (pre ++ l) bn))
       (seq (length pre) (length l) ≫= λ gi, InGroup gi <$> allSlots).
Proof.
  revert pre. induction l as [|g l IH]; intros pre; [done|].
  cbn [length seq]. rewrite !bind_cons, omap_app. f_equal.
  - unfold groupIds, allSlots, idAt. simpl. by rewrite !list_lookup_middle.
  - rewrite (IH (pre ++ [g])). rewrite length_app, Nat.add_1_r.
    by rewrite <- (assoc_L (++)).
Qed.

Lemma benchIds_locs c gs pre (l : list Player) :
  p_id <$> l =
  omap (idAt (mkDraft c gs (pre ++ l))) (OnBench <$> seq (length pre) (length l)).
Proof.
  revert pre. induction l as [|p l IH]; intros pre; [done|].
  cbn [length seq]. rewrite !fmap_cons. cbn [omap list_omap]. unfold idAt at 1. simpl.
  rewrite list_lookup_middle by done. simpl. f_equal.
  rewrite (IH (pre ++ [p])). rewrite length_app, Nat.add_1_r.
  by rewrite <- (assoc_L (++)).
Qed.

Lemma draftIds_locs d : draftIds d = omap (idAt d) (locs d).
Proof.
  destruct d as [c gs bn]. unfold draftIds, locs. rewrite omap_app. simpl. f_equal.
  - apply (groupIds_locs c bn [] gs).
  - apply (benchIds_locs c gs [] bn).
Qed.

Lemma elem_of_locs d loc :
  loc ∈ locs d ↔
  match loc with
  | InGroup gi _ => (gi < length (groups d))%nat
  | OnBench bi => (bi < length (bench d))%nat
  end.
Proof.
  unfold locs. rewrite elem_of_app, list_elem_of_bind, list_elem_of_fmap. split.
  - intros [(gi & Hs & Hgi)|(bi & -> & Hbi)].
    + apply list_elem_of_fmap in Hs as (s & -> & _). apply elem_of_seq in Hgi. lia.
    + apply elem_of_seq in Hbi. lia.
  - destruct loc as [gi s|bi]; intros H.
    + left. exists gi. split; [|apply elem_of_seq; lia].
      apply list_elem_of_fmap. exists s. split; [done|apply elem_of_allSlots].
    + right. exists bi. split; [done|apply elem_of_seq; lia].
Qed.

Lemma NoDup_locs d : NoDup (locs d).
Proof.
  unfold locs. apply NoDup_app. split_and!.
  - apply NoDup_bind.
    + intros gi gj loc _ _ (s & -> & _)%list_elem_of_fmap (t & [=] & _)%list_elem_of_fmap.
      done.
    + intros gi _. apply NoDup_fmap_2; [by intros ?? [=]|apply NoDup_allSlots].
    + apply NoDup_seq.
  - intros loc (gi & (s & -> & _)%list_elem_of_fmap & _)%list_elem_of_bind
      (bi & [=] & _)%list_elem_of_fmap.
  - apply NoDup_fmap_2; [by intros ?? [=]|apply NoDup_seq].
Qed.

Lemma readLoc_locs d loc p : readLoc d loc = Some p → loc ∈ locs d.
Proof.
  intros H. apply elem_of_locs. destruct loc as [gi s|bi]; simpl in H.
  - destruct (groups d !! gi) eqn:Hg; [|done]. by eapply lookup_lt_Some.
  - by eapply lookup_lt_Some.
Qed.

Lemma locs_exchange la lb pa pb d : locs (exchange la lb pa pb d) = locs d.
Proof.
  unfold locs, exchange.
  destruct la, lb; simpl; by rewrite ?length_alter, ?length_insert.
Qed.

Lemma locs_hydrate sg d : locs (hydrateDraftClassesFromSignups sg d) = locs d.
Proof. unfold locs. simpl. by rewrite !length_fmap. Qed.

Lemma idAt_hydrate sg d loc : idAt (hydrateDraftClassesFromSignups sg d) loc = idAt d loc.
Proof.
  unfold idAt. rewrite readLoc_hydrate. destruct (readLoc d loc); [|done].
  simpl. by rewrite attach_id.
Qed.

Lemma omap_ext_elem {A B} (f g : A → option B) (l : list A) :
  (∀ x, x ∈ l → f x = g x) → omap f l = omap g l.
Proof.
  intros H. apply list_omap_ext, Forall_Forall2_diag, Forall_forall. done.
Qed.

Lemma draftIds_hydrate sg d : draftIds (hydrateDraftClassesFromSignups sg d) = draftIds d.
Proof.
  rewrite !draftIds_locs, locs_hydrate. apply omap_ext_elem. intros loc _.
  apply idAt_hydrate.
Qed.

Global Instance transpose_inj la lb : Inj (=) (=) (transpose la lb).
Proof. intros x y. unfold transpose. repeat case_decide; congruence. Qed.

Lemma idAt_exchange la lb pa pb d loc :
  readLoc d la = Some pa → readLoc d lb = Some pb →
  idAt (exchange la lb pa pb d) loc = idAt d (transpose la lb loc).
Proof.
  intros Ha Hb. unfold idAt, transpose. rewrite (readLoc_exchange la lb pa pb d loc Ha Hb).
  repeat case_decide; subst; by rewrite ?Ha, ?Hb.
Qed.

Lemma transpose_locs la lb l :
  NoDup l → la ∈ l → lb ∈ l → transpose la lb <$> l ≡ₚ l.
Proof.
  intros Hnd Ha Hb. apply NoDup_Permutation; [by apply (NoDup_fmap_2 _)|done|].
  intros loc. rewrite list_elem_of_fmap. split.
  - intros (y & -> & Hy). unfold transpose. by repeat case_decide.
  - intros Hloc. exists (transpose la lb loc). split.
    + unfold transpose. repeat case_decide; congruence.
    + unfold transpose. by repeat case_decide.
Qed.

Lemma draftIds_exchange la lb pa pb d :
  readLoc d la = Some pa → readLoc d lb = Some pb →
  draftIds (exchange la lb pa pb d) ≡ₚ draftIds d.
Proof.
  intros Ha Hb. rewrite !draftIds_locs, locs_exchange.
  rewrite (list_omap_ext _ (idAt d) (locs d) (transpose la lb <$> locs d)).
  - apply omap_Permutation, transpose_locs;
      eauto using NoDup_locs, readLoc_locs.
  - apply Forall2_fmap_r, Forall_Forall2_diag, Forall_forall. intros loc _.
    by apply idAt_exchange.
Qed.

Lemma elem_of_draftIds d u : u ∈ draftIds d ↔ ∃ loc, holds d loc u.
Proof.
  rewrite draftIds_locs, list_elem_of_omap. unfold holds, idAt. split.
  - intros (loc & _ & H). by exists loc.
  - intros (loc & H). exists loc. split; [|done].
    destruct (readLoc d loc) as [p|] eqn:Hp; [|done]. by eapply readLoc_locs.
Qed.

(** X8.  [findPlayerInDraft] is sound and complete: the position it
    returns holds the player asked for, and it returns [null] only for an
    id that is in no slot and not on the bench. *)
Theorem findPlayerInDraft_spec d u :
  match findPlayerInDraft d u with
  | Some loc => p_id <$> readLoc d loc = Some u
  | None => u ∉ draftIds d
  end.
Proof.
  destruct (findPlayerInDraft d u) as [loc|] eqn:Hf.
  - by apply find_holds.
  - intros (loc & H)%elem_of_draftIds. apply holds_find in H as [? ?]. congruence.
Qed.

(** X9.  An accepted swap neither loses nor duplicates a player: the ids
    held by the draft after it are a rearrangement of those held before,
    so a draft without repeated ids stays one. *)
Theorem swap_keeps_players sg d a b force d1 :
  swapDraft sg d a b force = Swapped d1 →
  draftIds d1 ≡ₚ draftIds d ∧ (NoDup (draftIds d) → NoDup (draftIds d1)).
Proof.
  intros (la & lb & pa & pb & _ & _ & Ha & Hb & ->)%swapDraft_Swapped.
  assert (draftIds (hydrateDraftClassesFromSignups sg (exchange la lb pa pb d))
            ≡ₚ draftIds d) as HP.
  { rewrite draftIds_hydrate. by apply draftIds_exchange. }
  split; [done|]. by rewrite HP.
Qed.

Lemma swap_keeps_players_witness :
  draftIds forcedDraft ≡ₚ draftIds sampleDraft ∧ NoDup (draftIds forcedDraft).
Proof.
  destruct (swap_keeps_players ∅ sampleDraft "u1" "u3" true forcedDraft)
    as [HP Hnd]; [by vm_compute|].
  split; [exact HP|]. apply Hnd. apply (bool_decide_unpack _). by vm_compute.
Defined.

Lemma find_None_iff d u : findPlayerInDraft d u = None ↔ u ∉ draftIds d.
Proof.
  rewrite elem_of_draftIds. split.
  - intros Hf (loc & H). apply holds_find in H as [? ?]. congruence.
  - intros Hn. destruct (findPlayerInDraft d u) as [loc|] eqn:Hf; [|done].
    destruct Hn. exists loc. by apply find_holds.
Qed.

(** X10.  In a draft without repeated ids an accepted swap moves exactly
    the two players named: each is found afterwards where the other was,
    and every other id is found where it was (or still not at all). *)
Theorem swap_moves_only_the_two sg d a b force d1 :
  NoDup (draftIds d) → swapDraft sg d a b force = Swapped d1 →
  findPlayerInDraft d1 a = findPlayerInDraft d b ∧
  findPlayerInDraft d1 b = findPlayerInDraft d a ∧
  ∀ u, u ≠ a → u ≠ b → findPlayerInDraft d1 u = findPlayerInDraft d u.
Proof.
  intros HU%NoDup_Unique (la & lb & pa & pb & Hfa & Hfb & Ha & Hb & ->)%swapDraft_Swapped.
  destruct (swapDraft_after sg d a b la lb pa pb HU Hfa Hfb Ha Hb) as (H1 & H2 & _).
  rewrite Hfa, Hfb. split; [done|]. split; [done|]. intros u Hua Hub.
  pose proof (find_holds _ _ _ Hfa) as Hha. pose proof (find_holds _ _ _ Hfb) as Hhb.
  unfold holds in Hha, Hhb. rewrite Ha in Hha. rewrite Hb in Hhb. simplify_eq/=.
  assert (Unique (hydrateDraftClassesFromSignups sg (exchange la lb pa pb d))) as HU1.
  { by apply Unique_hydrate, Unique_exchange. }
  destruct (findPlayerInDraft d u) as [loc|] eqn:Hf.
  - apply find_unique; [done|]. apply holds_hydrate, (holds_exchange la lb pa pb d loc u Ha Hb).
    apply find_holds in Hf. right. right.
    split_and!; [| |done]; intros ->; unfold holds in Hf;
      rewrite ?Ha, ?Hb in Hf; by simplify_eq/=.
  - destruct (findPlayerInDraft (hydrateDraftClassesFromSignups sg _) u)
      as [loc|] eqn:Hf1; [|done]. exfalso.
    apply find_holds, holds_hydrate, (holds_exchange la lb pa pb d loc u Ha Hb) in Hf1.
    destruct Hf1 as [[_ ->]|[(_ & _ & ->)|(_ & _ & H)]]; [done..|].
    apply holds_find in H as [? ?]. congruence.
Qed.

Lemma swap_moves_only_the_two_witness :
  findPlayerInDraft forcedDraft "u1" = findPlayerInDraft sampleDraft "u3" ∧
  findPlayerInDraft forcedDraft "u3" = findPlayerInDraft sampleDraft "u1".
Proof.
  destruct (swap_moves_only_the_two ∅ sampleDraft "u1" "u3" true forcedDraft)
    as (H1 & H2 & _); [apply (bool_decide_unpack _); by vm_compute|by vm_compute|].
  split; [exact H1|exact H2].
Defined.

(** X11.  The swap is answered 'not in the draft' exactly when one of the
    two ids is in no slot and not on the bench; and with [force] it is
    never answered with the role mismatch. *)
Theorem swap_refusals sg d a b force :
  (swapDraft sg d a b force = NotInDraft ↔ a ∉ draftIds d ∨ b ∉ draftIds d) ∧
  swapDraft sg d a b true ≠ RoleMismatch.
Proof.
  rewrite <- !find_None_iff. unfold swapDraft.
  destruct (findPlayerInDraft d a) as [la|] eqn:Hfa.
  2:{ split; [|done]. split; [by left|done]. }
  destruct (findPlayerInDraft d b) as [lb|] eqn:Hfb.
  2:{ split; [|done]. split; [by right|done]. }
  destruct (find_read _ _ _ Hfa) as (pa & -> & _).
  destruct (find_read _ _ _ Hfb) as (pb & -> & _).
  split; [|done]. split; [|by intros [|]].
  by destruct (negb force && _).
Qed.

Lemma roleAllowed_attach sg p slot :
  roleAllowedForSlot (Some (attach sg p)) slot = roleAllowedForSlot (Some p) slot.
Proof.
  pose proof (attach_identity sg p) as H. unfold identityOf in H.
  injection H as _ _ H. unfold roleAllowedForSlot. by rewrite H.
Qed.

Lemma destinationOk_group p gi s :
  destinationOk (Some p) (InGroup gi s) = roleAllowedForSlot (Some p) (slotName s).
Proof. unfold destinationOk. by destruct s. Qed.

(** X12.  A swap accepted without [force] keeps the draft valid: when
    every occupied slot held a player eligible for it before, so it does
    after. *)
Theorem unforced_swap_keeps_roles sg d a b d1 :
  RoleValid d → swapDraft sg d a b false = Swapped d1 → RoleValid d1.
Proof.
  intros HV Hs gi s p Hp.
  pose proof Hs as (la & lb & pa & pb & Hfa & Hfb & Ha & Hb & ->)%swapDraft_Swapped.
  unfold swapDraft in Hs. rewrite Hfa, Hfb, Ha, Hb in Hs. simpl in Hs.
  destruct (destinationOk (Some pa) lb) eqn:Hda; [|done].
  destruct (destinationOk (Some pb) la) eqn:Hdb; [|done].
  rewrite readLoc_hydrate in Hp. apply fmap_Some in Hp as (p0 & Hp0 & ->).
  rewrite (readLoc_exchange la lb pa pb d _ Ha Hb) in Hp0.
  rewrite roleAllowed_attach.
  repeat case_decide; simplify_eq.
  - by rewrite <- (destinationOk_group p0 gi s).
  - by rewrite <- (destinationOk_group p0 gi s).
  - by apply (HV gi s).
Qed.

Lemma unforced_swap_keeps_roles_witness :
  ∃ d1, swapDraft ∅ twoTankDraft "u1" "u5" false = Swapped d1 ∧ RoleValid d1.
Proof.
  eexists. split; [by vm_compute|].
  apply (unforced_swap_keeps_roles ∅ twoTankDraft "u1" "u5"); [|by vm_compute].
  intros [|[|gi]] s p H; destruct s; simpl in H; by simplify_eq.
Defined.

(** ** What [preview] stores *)

Lemma refOf_id p : refOf p = p.
Proof. by destruct p. Qed.

Lemma RoleValid_draftFromResult now r :
  Forall rolesOk (r_groups r) → RoleValid (draftFromResult now r).
Proof.
  intros Hroles gi s p Hp. simpl in Hp. rewrite list_lookup_fmap in Hp.
  destruct (r_groups r !! gi) as [g|] eqn:Hg; [|done]. simpl in Hp.
  destruct (proj1 (Forall_forall _ _) Hroles g) as (Ht & Hh & Hd);
    [by eapply list_elem_of_lookup_2|].
  unfold roleAllowedForSlot.
  destruct s; simpl in Hp; apply fmap_Some in Hp as (q & Hq & ->);
    rewrite ?refOf_id; simpl; apply JSSet_has_true, JSSet_elem_of_ofArray;
    eauto using list_elem_of_lookup_2.
Qed.

Lemma draftIds_bench now players reas :
  draftIds (draftFromResult now (mkResult [] players reas)) = p_id <$> players.
Proof.
  unfold draftIds. simpl. rewrite <- list_fmap_compose.
  apply list_fmap_ext. by intros _ [] _.
Qed.

Lemma rollGroups_draft rnd sg desiredGroups attempts now :
  ∃ r, rollGroups rnd sg desiredGroups attempts = Some r ∧
       NoDup (draftIds (draftFromResult now r)) ∧
       (∀ i, i ∈ draftIds (draftFromResult now r) ↔ i ∈ dom sg) ∧
       RoleValid (draftFromResult now r).
Proof.
  assert (∀ reas, let r := mkResult [] (playersOf sg) reas in
            NoDup (draftIds (draftFromResult now r)) ∧
            (∀ i, i ∈ draftIds (draftFromResult now r) ↔ i ∈ dom sg) ∧
            RoleValid (draftFromResult now r)) as Hfail.
  { intros reas r. unfold r. rewrite draftIds_bench. split_and!.
    - apply playersOf_NoDup.
    - apply elem_of_playersOf_ids.
    - by apply RoleValid_draftFromResult. }
  destruct (rollGroups_cases rnd sg desiredGroups attempts)
    as [[_ ->]|(_ & outs & _ & _ & Hall & ->)].
  { eexists. split; [done|]. apply Hfail. }
  destruct (firstCompleted outs) as [b|] eqn:Hb.
  2:{ eexists. split; [done|]. apply Hfail. }
  eexists. split; [done|].
  destruct (firstCompleted_Good _ _ _ _ Hall Hb) as [_ Hfull Hroles _ Hids].
  rewrite draftIds_full by done. cbn [r_groups r_bench]. split_and!.
  - rewrite Hids. apply playersOf_NoDup.
  - intros i. rewrite Hids. apply elem_of_playersOf_ids.
  - by apply RoleValid_draftFromResult.
Qed.

Lemma getCurrentSession_save gs session s' :
  getCurrentSession gs = Some session →
  getCurrentSession (saveSession gs (currentSid gs) s') = Some s'.
Proof.
  unfold getCurrentSession, saveSession, currentSid. simpl.
  destruct (currentSessionId gs) as [sid|]; [|done]. simpl.
  case_bool_decide; [done|]. intros _. by rewrite lookup_insert_eq.
Qed.

(** X13.  Whatever the roster and the random draws, [preview] stores a
    draft in the current session, and that draft holds every signed-up id
    exactly once (in a slot or on the bench), nobody else, and only
    players eligible for the slot they are in; the roster is not
    touched. *)
Theorem preview_stores_valid_draft rnd gs session groupsWanted attempts now :
  getCurrentSession gs = Some session →
  ∃ gs' d,
    previewHandler rnd gs true groupsWanted attempts now = Some (gs', PreviewDraft d) ∧
    getCurrentSession gs' = Some (withDraft (Some d) session) ∧
    NoDup (draftIds d) ∧
    (∀ i, i ∈ draftIds d ↔ i ∈ dom (signups session)) ∧
    RoleValid d.
Proof.
  intros Hs. unfold previewHandler. simpl. rewrite Hs.
  destruct (rollGroups_draft rnd (signups session) groupsWanted (attemptsOf attempts) now)
    as (r & -> & Hnd & Hids & Hv).
  simpl. eexists _, _. split; [done|]. split; [|done].
  by apply (getCurrentSession_save gs session).
Qed.

Lemma preview_stores_valid_draft_witness :
  ∃ gs' d,
    previewHandler constRnd (sampleGuild None) true None None 7
      = Some (gs', PreviewDraft d) ∧
    NoDup (draftIds d) ∧ RoleValid d.
Proof.
  destruct (preview_stores_valid_draft constRnd (sampleGuild None) (sampleSession None)
              None None 7) as (gs' & d & H & _ & Hnd & _ & Hv); [by vm_compute|].
  exists gs', d. split; [exact H|]. split; [exact Hnd|exact Hv].
Defined.

(** X14.  Hydrating a draft only refreshes class snapshots: the ids and
    the players (id, name, roles) at every position stay, hydrating again
    changes nothing more, every player whose signup has a class object
    carries it afterwards, and a player without a signup keeps the
    snapshot. *)
Theorem hydrate_refreshes_classes sg d :
  let d' := hydrateDraftClassesFromSignups sg d in
  draftIds d' = draftIds d ∧
  hydrateDraftClassesFromSignups sg d' = d' ∧
  (∀ loc, identityOf <$> readLoc d' loc = identityOf <$> readLoc d loc) ∧
  (∀ loc p e c, readLoc d' loc = Some p → sg !! p_id p = Some e →
                classes e = Some c → p_classes p = c) ∧
  (∀ loc p, readLoc d loc = Some p → sg !! p_id p = None → readLoc d' loc = Some p).
Proof.
  intros d'. unfold d'. split_and!.
  - apply draftIds_hydrate.
  - apply hydrate_idem.
  - intros loc. rewrite readLoc_hydrate. destruct (readLoc d loc) as [p|]; [|done].
    simpl. by rewrite attach_identity.
  - intros loc p e c Hp He Hc. rewrite readLoc_hydrate in Hp.
    apply fmap_Some in Hp as (q & _ & ->). rewrite attach_id in He.
    unfold attach. by rewrite He, Hc.
  - intros loc p Hp Hn. rewrite readLoc_hydrate, Hp. simpl. unfold attach.
    by rewrite Hn.
Qed.

(** ** The roster handlers *)

Lemma current_by_id gs session :
  getCurrentSession gs = Some session → getSessionById gs (currentSid gs) = Some session.
Proof.
  unfold getCurrentSession, getSessionById, currentSid.
  destruct (currentSessionId gs) as [sid|]; [|done]. simpl. by case_bool_decide.
Qed.

(** X15.  A toggle on an open session flips exactly the requested role
    of the caller: the reply lists the new role set, which has the role
    when it did not before and every other role as before.  It keeps the
    caller's stored classes (also for a role toggled off) and touches
    nobody else's entry, nor the draft, the lock or another session. *)
Theorem toggle_effect wc gs sid session r uid name now :
  getSessionById gs sid = Some session → locked session now = false →
  ∃ gs' rs session',
    buttonHandler wc gs "mplus" sid "toggle" r uid name now = (gs', Updated rs) ∧
    getSessionById gs' sid = Some session' ∧
    (∀ x, x ∈ rs ↔ x ∈ rolesOf gs' sid uid) ∧
    (∀ x, x ∈ rolesOf gs' sid uid ↔
          (x ≠ r ∧ x ∈ rolesOf gs sid uid) ∨ (x = r ∧ r ∉ rolesOf gs sid uid)) ∧
    (∀ u, u ≠ uid → signups session' !! u = signups session !! u) ∧
    (∀ e c, signups session !! uid = Some e → classes e = Some c →
            classes <$> signups session' !! uid = Some (Some c)) ∧
    lastDraft session' = lastDraft session ∧ lockAt session' = lockAt session ∧
    currentSessionId gs' = currentSessionId gs ∧
    (∀ sid', sid' ≠ sid → getSessionById gs' sid' = getSessionById gs sid').
Proof.
  intros Hs Hl. unfold buttonHandler. rewrite Hs, Hl.
  change (negb (bool_decide ("mplus" = "mplus"))) with false.
  change (bool_decide ("toggle" = "toggle")) with true. cbv beta iota zeta.
  eexists _, _, _. split; [done|].
  split; [by rewrite getSessionById_save, decide_True|].
  split_and!.
  - intros x. erewrite rolesOf_session by (by rewrite getSessionById_save, decide_True).
    simpl. rewrite lookup_insert_eq. simpl. by rewrite JSSet_elem_of_ofArray.
  - intros x. erewrite rolesOf_session by (by rewrite getSessionById_save, decide_True).
    rewrite (rolesOf_session gs sid session uid Hs).
    simpl. rewrite lookup_insert_eq. simpl.
    rewrite !JSSet_elem_of_ofArray, elem_of_toggleRoles, ensureSignup_roles. done.
  - intros u Hu. simpl. by rewrite lookup_insert_ne.
  - intros e c He Hc. simpl. rewrite lookup_insert_eq. simpl.
    unfold ensureSignup. rewrite He. simpl. destruct wc; simpl; by rewrite Hc.
  - done.
  - done.
  - done.
  - intros sid' Hne. by rewrite getSessionById_save, decide_False.
Qed.

Lemma toggle_effect_witness :
  ∃ gs' rs,
    buttonHandler true (sampleGuild None) "mplus" "s1" "toggle" "HEAL" "u3" "Cy" 5
      = (gs', Updated rs) ∧ "HEAL" ∈ rs ∧ "DPS" ∈ rs.
Proof.
  destruct (toggle_effect true (sampleGuild None) "s1" (sampleSession None)
              "HEAL" "u3" "Cy" 5) as (gs' & rs & s' & H & _ & Hrs & Hiff & _);
    [by vm_compute|by vm_compute|].
  exists gs', rs. split; [exact H|].
  split; apply Hrs, Hiff.
  - right. split; [done|]. apply (bool_decide_unpack _). by vm_compute.
  - left. split; [done|]. apply (bool_decide_unpack _). by vm_compute.
Defined.

(** X16.  After a participant has left the current (open) session, the
    next preview holds everybody else who is signed up and not the one who
    left, whatever the draws. *)
Theorem leave_then_preview rnd wc gs session payload uid name now
    groupsWanted attempts now' :
  getCurrentSession gs = Some session → locked session now = false →
  ∃ gs1 gs2 d,
    buttonHandler wc gs "mplus" (currentSid gs) "leave" payload uid name now
      = (gs1, Removed) ∧
    previewHandler rnd gs1 true groupsWanted attempts now' = Some (gs2, PreviewDraft d) ∧
    (uid ∉ draftIds d) ∧
    ∀ u, u ≠ uid → (u ∈ draftIds d ↔ u ∈ dom (signups session)).
Proof.
  intros Hs Hl. unfold buttonHandler. rewrite (current_by_id gs session Hs), Hl.
  change (negb (bool_decide ("mplus" = "mplus"))) with false.
  change (bool_decide ("leave" = "toggle")) with false.
  change (bool_decide ("leave" = "leave")) with true. cbv beta iota zeta.
  exists (saveSession gs (currentSid gs)
            (withSignups (delete uid (signups session)) session)).
  unfold previewHandler. simpl negb. cbv iota.
  rewrite (getCurrentSession_save gs session _ Hs).
  destruct (rollGroups_draft rnd (delete uid (signups session)) groupsWanted
              (attemptsOf attempts) now') as (r & Hr & _ & Hids & _).
  simpl. rewrite Hr. simpl. eexists _, _. split; [done|]. split; [done|].
  split.
  - rewrite Hids, dom_delete, elem_of_difference, elem_of_singleton. tauto.
  - intros u Hu. rewrite Hids, dom_delete, elem_of_difference, elem_of_singleton. tauto.
Qed.

Lemma leave_then_preview_witness :
  ∃ gs1 gs2 d,
    buttonHandler true (sampleGuild None) "mplus" "s1" "leave" "" "u3" "Cy" 5
      = (gs1, Removed) ∧
    previewHandler constRnd gs1 true None None 6 = Some (gs2, PreviewDraft d) ∧
    ("u3" ∉ draftIds d) ∧ "u1" ∈ draftIds d.
Proof.
  destruct (leave_then_preview constRnd true (sampleGuild None) (sampleSession None)
              "" "u3" "Cy" 5 None None 6) as (gs1 & gs2 & d & H1 & H2 & H3 & H4);
    [by vm_compute|by vm_compute|].
  exists gs1, gs2, d. split; [exact H1|]. split; [exact H2|]. split; [exact H3|].
  apply H4; [done|]. apply (bool_decide_unpack _). by vm_compute.
Defined.

Lemma noClasses_shown role : mjoin (noClasses !! role) = None.
Proof.
  unfold noClasses.
  destruct (decide (role = "TANK")) as [->|?]; [by rewrite lookup_insert_eq|].
  rewrite lookup_insert_ne by done.
  destruct (decide (role = "HEAL")) as [->|?]; [by rewrite lookup_insert_eq|].
  rewrite lookup_insert_ne by done.
  destruct (decide (role = "DPS")) as [->|?]; [by rewrite lookup_insert_eq|].
  by rewrite lookup_insert_ne.
Qed.

(** X17.  An accepted class selection rewrites the caller's entry and
    nothing else.  The entry keeps its role array, takes the caller's
    current display name, and its classes object is the old one (the
    all-null object when the entry had none) with the chosen role set to
    the chosen class.  So the caller's role set and the class shown for
    every other role stay, as do the other entries, the lock, the current
    session id, the other sessions and the draft, whose class snapshots
    are therefore not refreshed by the selection. *)
Theorem classSelect_frame gs sid session roleKey uid name value now c gs' :
  getSessionById gs sid = Some session →
  classSelectHandler gs "mplus" sid "class" roleKey uid name value now
    = (gs', ClassUpdated c) →
  ∃ session' e,
    getSessionById gs' sid = Some session' ∧
    signups session !! uid = Some e ∧
    signups session' !! uid =
      Some (mkSignup (roles e) name
              (Some (<[roleKey := c]> (default noClasses (classes e))))) ∧
    (∀ x, x ∈ rolesOf gs' sid uid ↔ x ∈ rolesOf gs sid uid) ∧
    (∀ role, role ≠ roleKey →
             mjoin (classOf gs' sid uid role) = mjoin (classOf gs sid uid role)) ∧
    (∀ u, u ≠ uid → signups session' !! u = signups session !! u) ∧
    lastDraft session' = lastDraft session ∧ lockAt session' = lockAt session ∧
    currentSessionId gs' = currentSessionId gs ∧
    (∀ sid', sid' ≠ sid → getSessionById gs' sid' = getSessionById gs sid').
Proof.
  intros Hs. unfold classSelectHandler. rewrite Hs.
  change (negb (bool_decide ("mplus" = "mplus")) || negb (bool_decide ("class" = "class")))
    with false. cbv beta iota zeta.
  destruct (locked session now); [by intros [=]|].
  destruct (JSSet.has roleKey (JSSet.ofArray (roles (ensureSignup true (signups session)
                                                      uid name)))) eqn:Hrole;
    [|by intros [=]].
  simpl negb. cbv iota.
  destruct (negb (bool_decide (value = "UNSET")) && _); [by intros [=]|].
  intros [= <- <-].
  destruct (signups session !! uid) as [e|] eqn:He.
  2:{ apply JSSet_has_true in Hrole. rewrite JSSet_elem_of_ofArray in Hrole.
      simpl in Hrole. rewrite He in Hrole. by apply elem_of_nil in Hrole. }
  eexists _, e. split; [by rewrite getSessionById_save, decide_True|].
  split; [done|]. split_and!.
  - simpl. by rewrite lookup_insert_eq.
  - intros x. erewrite rolesOf_session by (by rewrite getSessionById_save, decide_True).
    rewrite (rolesOf_session gs sid session uid Hs).
    simpl. rewrite lookup_insert_eq, He. done.
  - intros role Hne. unfold classOf. unfold getSessionById in Hs. simpl.
    rewrite lookup_insert_eq, Hs. simpl. rewrite lookup_insert_eq, He. simpl.
    rewrite lookup_insert_ne by done.
    destruct (classes e); simpl; by rewrite ?noClasses_shown.
  - intros u Hu. simpl. by rewrite lookup_insert_ne.
  - done.
  - done.
  - done.
  - intros sid' Hne. by rewrite getSessionById_save, decide_False.
Qed.

Lemma classSelect_frame_witness :
  ∃ gs' session',
    classSelectHandler (sampleGuild None) "mplus" "s1" "class" "TANK" "u1" "Ana B"
      "DRUID" 5 = (gs', ClassUpdated (Some "DRUID")) ∧
    getSessionById gs' "s1" = Some session' ∧
    signups session' !! "u1" =
      Some (mkSignup ["TANK"; "DPS"] "Ana B" (Some (<["TANK" := Some "DRUID"]> noClasses))) ∧
    lastDraft session' = Some sampleDraft.
Proof.
  eexists.
  destruct (classSelect_frame (sampleGuild None) "s1" (sampleSession None) "TANK" "u1"
              "Ana B" "DRUID" 5 (Some "DRUID") _ eq_refl eq_refl)
    as (s' & e & H1 & He & H2 & _ & _ & _ & H3 & _).
  exists s'. split; [reflexivity|]. split; [exact H1|]. split; [|exact H3].
  rewrite H2. vm_compute in He. injection He as <-. reflexivity.
Defined.

(** X18.  [setlock] and [unlock] change the deadline of the current
    session and nothing else in it.  After [setlock] the roster is locked
    from the moment [now + minutes * 60000] on, unless that sum is 0, in
    which case it is never locked; after [unlock] it is never locked. *)
Theorem lock_commands gs session minutes now :
  getCurrentSession gs = Some session →
  (∃ s1, getCurrentSession (setlockHandler gs true minutes now).1 = Some s1 ∧
         signups s1 = signups session ∧ lastDraft s1 = lastDraft session ∧
         ∀ now', locked s1 now' = true ↔
                 now + minutes * 60000 ≠ 0 ∧ now + minutes * 60000 ≤ now') ∧
  (∃ s2, getCurrentSession (unlockHandler gs true).1 = Some s2 ∧
         signups s2 = signups session ∧ lastDraft s2 = lastDraft session ∧
         ∀ now', locked s2 now' = false).
Proof.
  intros Hs. unfold setlockHandler, unlockHandler. simpl negb. cbv iota.
  rewrite Hs. cbv zeta. cbn [fst]. split.
  - eexists. split; [by apply (getCurrentSession_save gs session)|].
    split; [done|]. split; [done|]. intros now'. unfold locked. simpl.
    rewrite andb_true_iff, negb_true_iff, bool_decide_eq_false, bool_decide_eq_true.
    done.
  - eexists. split; [by apply (getCurrentSession_save gs session)|]. done.
Qed.

Lemma lock_commands_witness :
  ∃ s1, getCurrentSession (setlockHandler (sampleGuild None) true (-1) 100000).1 = Some s1 ∧
        locked s1 40000 = true ∧ locked s1 39999 = false.
Proof.
  destruct (lock_commands (sampleGuild None) (sampleSession None) (-1) 100000 eq_refl)
    as [(s1 & H1 & _ & _ & H2) _].
  exists s1. split; [exact H1|]. split.
  - apply H2. lia.
  - apply not_true_is_false. intros H%H2. lia.
Defined.

(** X19.  A negative attempt budget, which the [attempts] option
    accepts, makes [roll] fail whenever a group could be formed: the loop
    body never runs and the reply is the budget-exhausted result. *)
Theorem roll_negative_attempts rnd gs session groupsWanted n :
  getCurrentSession gs = Some session → n < 0 →
  0 < effectiveTarget groupsWanted (signups session) →
  rollHandler rnd gs true groupsWanted (Some n) =
    Some (gs, Rolled (budgetExhausted (playersOf (signups session)) n)).
Proof.
  intros Hs Hn HT. unfold rollHandler. simpl negb. cbv iota. rewrite Hs.
  unfold attemptsOf. rewrite bool_decide_eq_false_2 by lia.
  destruct (rollGroups_cases rnd (signups session) groupsWanted n)
    as [[? _]|(_ & outs & _ & Hlen & _ & ->)].
  { rewrite targetGroupsOf_effective in *. lia. }
  destruct outs; [done|]. simpl in Hlen. lia.
Qed.

Lemma roll_negative_attempts_witness :
  rollHandler constRnd
    (mkGuildState (Some "s1")
       {[ "s1" := mkSession "s1" "Keys" "" None sampleRoster 0 None ]})
    true None (Some (-1)) =
  Some (mkGuildState (Some "s1")
          {[ "s1" := mkSession "s1" "Keys" "" None sampleRoster 0 None ]},
        Rolled (budgetExhausted (playersOf sampleRoster) (-1))).
Proof.
  apply (roll_negative_attempts constRnd _
           (mkSession "s1" "Keys" "" None sampleRoster 0 None)); [done|lia|by vm_compute].
Defined.


(** ** The session store *)

Lemma insertByCreated_Permutation x l : insertByCreated x l ≡ₚ x :: l.
Proof.
  induction l as [|y l IH]; [done|]. simpl. case_bool_decide; [done|].
  rewrite IH. apply Permutation_swap.
Qed.

Lemma sortByCreated_Permutation l : sortByCreated l ≡ₚ l.
Proof.
  induction l as [|x l IH]; [done|]. simpl.
  by rewrite insertByCreated_Permutation, IH.
Qed.

Lemma insertByCreated_sorted x l :
  StronglySorted newerEq l → StronglySorted newerEq (insertByCreated x l).
Proof.
  induction 1 as [|y l Hl IH Hy]; simpl.
  - by repeat constructor.
  - case_bool_decide as Hc.
    + constructor; [by constructor|]. constructor; [done|].
      eapply Forall_impl; [exact Hy|]. unfold newerEq. intros z Hz. simpl in *. lia.
    + constructor; [done|]. rewrite insertByCreated_Permutation.
      constructor; [|done]. unfold newerEq. lia.
Qed.

Lemma sortByCreated_sorted l : StronglySorted newerEq (sortByCreated l).
Proof.
  induction l as [|x l IH]; simpl; [constructor|by apply insertByCreated_sorted].
Qed.

Lemma StronglySorted_take_drop {A} (R : A → A → Prop) l k x y :
  StronglySorted R l → x ∈ take k l → y ∈ drop k l → R x y.
Proof.
  intros Hl. revert k. induction Hl as [|a l Hl IH Ha]; intros k Hx Hy.
  - rewrite take_nil in Hx. by apply elem_of_nil in Hx.
  - destruct k as [|k]; simpl in *; [by apply elem_of_nil in Hx|].
    apply elem_of_cons in Hx as [->|Hx]; [|by eapply IH].
    apply (proj1 (Forall_forall _ _) Ha). eapply (subseteq_drop k), Hy.
Qed.

Lemma prune_loop_keep keepIds (l : list (string * Session)) (m : gmap string Session) id :
  id ∈ keepIds ∨ id ∉ l.*1 →
  foldl (λ m e, if JSSet.has e.1 keepIds then m else delete e.1 m) m l !! id = m !! id.
Proof.
  revert m. induction l as [|e l IH]; intros m H; [done|]. simpl.
  rewrite IH by (rewrite fmap_cons, not_elem_of_cons in H; tauto).
  destruct (JSSet.has e.1 keepIds) eqn:He; [done|].
  apply lookup_delete_ne. intros <-. destruct H as [H|H].
  - apply JSSet_has_true in H. congruence.
  - apply H. rewrite fmap_cons. by left.
Qed.

Lemma prune_loop_drop keepIds (l : list (string * Session)) (m : gmap string Session) id :
  id ∈ l.*1 → id ∉ keepIds →
  foldl (λ m e, if JSSet.has e.1 keepIds then m else delete e.1 m) m l !! id = None.
Proof.
  revert m. induction l as [|e l IH]; intros m Hin Hk; [by apply elem_of_nil in Hin|].
  simpl. destruct (decide (id ∈ l.*1)) as [Hl|Hl]; [by apply IH|].
  rewrite prune_loop_keep by by right.
  rewrite fmap_cons in Hin. apply elem_of_cons in Hin as [->|?]; [|done].
  destruct (JSSet.has e.1 keepIds) eqn:He.
  - by apply JSSet_has_true in He.
  - apply lookup_delete_eq.
Qed.

Lemma pruneOldSessions_kept entriesOf gs keep :
  (∀ m, entriesOf m ≡ₚ map_to_list m) →
  ∃ K D, K ++ D ≡ₚ map_to_list (sessions gs) ∧
         length K = (keep `min` size (sessions gs))%nat ∧
         NoDup K.*1 ∧
         (∀ x y, x ∈ K → y ∈ D → newerEq x y) ∧
         sessions (pruneOldSessions entriesOf gs keep) = list_to_map K.
Proof.
  intros Henum. set (S := sortByCreated (entriesOf (sessions gs))).
  assert (S ≡ₚ map_to_list (sessions gs)) as HS.
  { unfold S. by rewrite sortByCreated_Permutation. }
  assert (NoDup S.*1) as Hnd.
  { rewrite HS. apply NoDup_fst_map_to_list. }
  assert (NoDup (take keep S).*1) as HndK.
  { rewrite <- (take_drop keep S), fmap_app in Hnd. by apply NoDup_app in Hnd as [? _]. }
  exists (take keep S), (drop keep S). split_and!.
  - by rewrite take_drop.
  - rewrite length_take. rewrite HS, length_map_to_list. lia.
  - done.
  - intros x y Hx Hy. eapply StronglySorted_take_drop; [|done..].
    apply sortByCreated_sorted.
  - unfold pruneOldSessions. fold S. cbn [sessions]. apply map_eq. intros id.
    destruct (decide (id ∈ (take keep S).*1)) as [Hk|Hk].
    + rewrite prune_loop_keep by (left; by apply JSSet_elem_of_ofArray).
      apply list_elem_of_fmap in Hk as ([id' s] & -> & Hk). simpl.
      rewrite (elem_of_list_to_map_1 _ _ _ HndK Hk).
      apply elem_of_map_to_list. rewrite <- HS. by eapply subseteq_take.
    + rewrite (not_elem_of_list_to_map_1 _ _ Hk).
      destruct (decide (id ∈ S.*1)) as [Hs|Hs].
      * apply prune_loop_drop; [done|]. by rewrite JSSet_elem_of_ofArray.
      * rewrite prune_loop_keep by by right.
        destruct (sessions gs !! id) as [s|] eqn:Hm; [|done].
        destruct Hs. apply list_elem_of_fmap. exists (id, s). split; [done|].
        rewrite HS. by apply elem_of_map_to_list.
Qed.

Lemma pruneOldSessions_subseteq entriesOf gs keep :
  (∀ m, entriesOf m ≡ₚ map_to_list m) →
  sessions (pruneOldSessions entriesOf gs keep) ⊆ sessions gs.
Proof.
  intros Henum.
  destruct (pruneOldSessions_kept entriesOf gs keep Henum)
    as (K & D & HKD & _ & _ & _ & ->).
  apply map_subseteq_spec. intros id s H%elem_of_list_to_map_2.
  apply elem_of_map_to_list. rewrite <- HKD. apply elem_of_app. by left.
Qed.

Lemma pruneOldSessions_size entriesOf gs keep :
  (∀ m, entriesOf m ≡ₚ map_to_list m) →
  size (sessions (pruneOldSessions entriesOf gs keep))
  = (keep `min` size (sessions gs))%nat.
Proof.
  intros Henum.
  destruct (pruneOldSessions_kept entriesOf gs keep Henum)
    as (K & D & _ & Hlen & Hnd & _ & ->).
  by rewrite map_size_list_to_map.
Qed.

Lemma pruneOldSessions_newest entriesOf gs keep id s id' s' :
  (∀ m, entriesOf m ≡ₚ map_to_list m) →
  sessions (pruneOldSessions entriesOf gs keep) !! id = Some s →
  sessions gs !! id' = Some s' →
  sessions (pruneOldSessions entriesOf gs keep) !! id' = None →
  s_createdAt s' ≤ s_createdAt s.
Proof.
  intros Henum.
  destruct (pruneOldSessions_kept entriesOf gs keep Henum)
    as (K & D & HKD & _ & Hnd & Hnew & ->).
  intros H%elem_of_list_to_map_2 H' Hnone.
  apply (Hnew (id, s) (id', s')); [done|].
  apply elem_of_map_to_list in H'. rewrite <- HKD in H'.
  apply elem_of_app in H' as [H'|H']; [|done].
  apply (elem_of_list_to_map_1 _ _ _ Hnd) in H'. congruence.
Qed.

(** X20.  [pruneOldSessions] keeps the [keep] newest sessions, whatever
    the key order of the session object: it leaves the current id and the
    surviving sessions as they are, as many sessions as there were but at
    most [keep], and no dropped session is newer than a kept one. *)
Theorem pruneOldSessions_keeps_newest entriesOf gs keep :
  (∀ m, entriesOf m ≡ₚ map_to_list m) →
  let gs' := pruneOldSessions entriesOf gs keep in
  currentSessionId gs' = currentSessionId gs ∧
  sessions gs' ⊆ sessions gs ∧
  size (sessions gs') = (keep `min` size (sessions gs))%nat ∧
  ∀ id s id' s',
    sessions gs' !! id = Some s → sessions gs !! id' = Some s' →
    sessions gs' !! id' = None → s_createdAt s' ≤ s_createdAt s.
Proof.
  intros Henum gs'. unfold gs'. split_and!.
  - done.
  - by apply pruneOldSessions_subseteq.
  - by apply pruneOldSessions_size.
  - intros id s id' s'. by apply pruneOldSessions_newest.
Qed.

Lemma pruneOldSessions_keeps_newest_witness :
  size (sessions (pruneOldSessions map_to_list twoSessions 1)) = 1%nat ∧
  sessions (pruneOldSessions map_to_list twoSessions 1) ⊆ sessions twoSessions.
Proof.
  destruct (pruneOldSessions_keeps_newest map_to_list twoSessions 1) as (_ & H1 & H2 & _);
    [done|].
  split; [|exact H1]. rewrite H2. by vm_compute.
Defined.

(** X21.  [create], when the signup message could be posted, makes the
    new session the current one, with no signup and no draft, provided
    every other stored session is older than it; the state then has at
    most twelve sessions, each of them the new one or one that was there.
    Without [lock_in_minutes], or with 0, the new session never locks.
    When the message cannot be posted nothing is persisted. *)
Theorem create_makes_current entriesOf gs guildId ttl description lockMin
    now1 now2 now3 :
  (∀ m, entriesOf m ≡ₚ map_to_list m) →
  (∀ id s, sessions gs !! id = Some s →
           id ≠ "s-" +:+ guildId +:+ "-" +:+ pretty now2 → s_createdAt s < now3) →
  (∃ gs' session,
     createHandler entriesOf gs true true guildId ttl description lockMin
       now1 now2 now3 = (gs', CmdCreated) ∧
     getCurrentSession gs' = Some session ∧
     title session = ttl ∧ signups session = ∅ ∧ lastDraft session = None ∧
     (lockMin = None ∨ lockMin = Some 0 → ∀ now, locked session now = false) ∧
     (size (sessions gs') ≤ 12)%nat ∧
     sessions gs' ⊆ <[s_id session := session]> (sessions gs)) ∧
  createHandler entriesOf gs true false guildId ttl description lockMin
    now1 now2 now3 = (gs, CmdThrown).
Proof.
  intros Henum Hold. split; [|done].
  unfold createHandler. simpl negb. cbv iota zeta.
  set (sid := "s-" +:+ guildId +:+ "-" +:+ pretty now2) in *.
  set (lk := match lockMin with
             | Some m => if bool_decide (m = 0) then None else Some (now1 + m * 60000)
             | None => None
             end).
  set (session := mkSession sid ttl (default "" description) lk ∅ now3 None).
  set (gs1 := mkGuildState (Some sid) (<[sid:=session]> (sessions gs))).
  assert (currentSessionId (pruneOldSessions entriesOf gs1 12) = currentSessionId gs1)
    as Hcur by done.
  pose proof (pruneOldSessions_subseteq entriesOf gs1 12 Henum) as Hsub.
  pose proof (pruneOldSessions_size entriesOf gs1 12 Henum) as Hsize.
  pose proof (λ id s id' s', pruneOldSessions_newest entriesOf gs1 12 id s id' s' Henum)
    as Hnew.
  assert (sessions (pruneOldSessions entriesOf gs1 12) !! sid = Some session) as Hkept.
  { destruct (sessions (pruneOldSessions entriesOf gs1 12) !! sid) as [x|] eqn:Hx.
    - rewrite map_subseteq_spec in Hsub. apply Hsub in Hx. simpl in Hx.
      by rewrite lookup_insert_eq in Hx.
    - exfalso.
      destruct (map_size_ne_0_lookup_1 (sessions (pruneOldSessions entriesOf gs1 12)))
        as (id & s & Hid).
      { assert (size (sessions gs1) ≠ 0%nat) as Hpos.
        { apply (map_size_ne_0_lookup_2 _ sid). unfold gs1. cbn [sessions].
          by rewrite lookup_insert_eq. }
        rewrite Hsize. lia. }
      assert (id ≠ sid) as Hne by congruence.
      pose proof Hid as Hid1. rewrite map_subseteq_spec in Hsub. apply Hsub in Hid1.
      simpl in Hid1. rewrite lookup_insert_ne in Hid1 by done.
      pose proof (Hold id s Hid1 Hne) as Hlt.
      pose proof (Hnew id s sid session Hid) as Hle. simpl in Hle.
      rewrite lookup_insert_eq in Hle. specialize (Hle eq_refl Hx). simpl in Hle. lia. }
  exists (pruneOldSessions entriesOf gs1 12), session. split; [done|]. split_and!.
  - unfold getCurrentSession. rewrite Hcur. unfold gs1 at 1. cbn [currentSessionId].
    rewrite bool_decide_eq_false_2 by done. exact Hkept.
  - done.
  - done.
  - done.
  - intros Hl now. unfold locked. simpl. unfold lk.
    destruct Hl as [->| ->]; [done|]. by rewrite bool_decide_eq_true_2.
  - rewrite Hsize. lia.
  - done.
Qed.

Lemma create_makes_current_witness :
  ∃ gs' session,
    createHandler map_to_list twoSessions true true "g" "Keys" None None 3 3 3
      = (gs', CmdCreated) ∧
    getCurrentSession gs' = Some session ∧ s_id session = "s-g-3".
Proof.
  destruct (create_makes_current map_to_list twoSessions "g" "Keys" None None 3 3 3)
    as [(gs' & session & H1 & H2 & _) _].
  - done.
  - intros id s Hs _. unfold twoSessions in Hs. simpl in Hs.
    apply lookup_insert_Some in Hs as [[_ <-]|[_ Hs]]; [simpl; lia|].
    apply lookup_singleton_Some in Hs as [_ <-]. simpl. lia.
  - exists gs', session. split; [exact H1|]. split; [exact H2|].
    assert (getCurrentSession
              (createHandler map_to_list twoSessions true true "g" "Keys" None None 3 3 3).1
            = Some (mkSession "s-g-3" "Keys" "" None ∅ 3 None)) as H by by vm_compute.
    rewrite H1 in H. simpl in H. rewrite H2 in H. injection H as Heq. by rewrite Heq.
Defined.

(** X22.  After [clear] the current session has no signup and no draft:
    a swap is answered with 'No draft yet', a roll reports that no group
    can be formed from nobody; the lock deadline stays, and so does every
    other session. *)
Theorem clear_effect gs session :
  getCurrentSession gs = Some session →
  ∃ gs1 s1,
    clearHandler gs true = (gs1, CmdCleared) ∧
    getCurrentSession gs1 = Some s1 ∧ lockAt s1 = lockAt session ∧
    (∀ a b force, swapHandler gs1 true a b force = (gs1, NoDraftYet)) ∧
    (∀ rnd groupsWanted attempts,
       rollHandler rnd gs1 true groupsWanted attempts =
         Some (gs1, Rolled (mkResult [] [] (Some (CannotForm 0 0 0 0))))) ∧
    (∀ sid', sid' ≠ currentSid gs → getSessionById gs1 sid' = getSessionById gs sid').
Proof.
  intros Hs. unfold clearHandler. simpl negb. cbv iota. rewrite Hs.
  eexists _, _. split; [done|].
  pose proof (getCurrentSession_save gs session
                (mkSession (s_id session) (title session) (description session)
                   (lockAt session) ∅ (s_createdAt session) None) Hs) as Hc.
  split; [exact Hc|]. split; [done|]. split_and!.
  - intros a b force. unfold swapHandler. simpl negb. cbv iota. by rewrite Hc.
  - intros rnd g a. unfold rollHandler. simpl negb. cbv iota. rewrite Hc. simpl.
    destruct (rollGroups_cases rnd ∅ g (attemptsOf a)) as [[_ ->]|[HT _]]; [done|].
    exfalso. rewrite targetGroupsOf_effective in HT.
    pose proof (effectiveTarget_le g ∅) as Hle.
    assert (feasibilityCeiling ∅ = 0) as H0 by by vm_compute. lia.
  - intros sid' Hne. by rewrite getSessionById_save, decide_False.
Qed.

Lemma clear_effect_witness :
  ∃ gs1, clearHandler (sampleGuild (Some 5)) true = (gs1, CmdCleared) ∧
         swapHandler gs1 true "u1" "u3" true = (gs1, NoDraftYet).
Proof.
  destruct (clear_effect (sampleGuild (Some 5)) (sampleSession (Some 5)) eq_refl)
    as (gs1 & s1 & H1 & _ & _ & H2 & _).
  exists gs1. split; [exact H1|apply H2].
Defined.

(** ** The class menus *)

Lemma ROLE_CLASSES_known roleKey c : c ∈ ROLE_CLASSES roleKey → c ∈ WOW_CLASSES.
Proof.
  unfold ROLE_CLASSES. repeat case_bool_decide; [| |done|by intros ?%elem_of_nil];
    intros Hc; revert c Hc; apply Forall_forall, (bool_decide_unpack _); by vm_compute.
Qed.

(** X23.  The class menu of a role offers exactly the values the select
    handler accepts for it: on an open session, for a role the caller has,
    a value is answered with a class update when it is one of the menu's
    options, and refused otherwise. *)
Theorem menu_offers_what_is_accepted gs sid session roleKey uid name value now :
  getSessionById gs sid = Some session → locked session now = false →
  roleKey ∈ rolesOf gs sid uid →
  value ∈ classMenuValues roleKey ↔
  ∃ gs' c, classSelectHandler gs "mplus" sid "class" roleKey uid name value now
             = (gs', ClassUpdated c).
Proof.
  intros Hs Hl Hr.
  assert (value ∈ classMenuValues roleKey ↔
          value = "UNSET" ∨ value ∈ ROLE_CLASSES roleKey) as ->.
  { unfold classMenuValues. rewrite elem_of_cons, list_elem_of_filter, JSSet_has_true.
    split; [tauto|]. intros [?|?]; [by left|right]. eauto using ROLE_CLASSES_known. }
  unfold classSelectHandler. rewrite Hs, Hl.
  change (negb (bool_decide ("mplus" = "mplus")) || negb (bool_decide ("class" = "class")))
    with false. cbv beta iota zeta.
  rewrite (rolesOf_session gs sid session uid Hs), <- (ensureSignup_roles true _ _ name) in Hr.
  apply JSSet_has_true in Hr. rewrite Hr. simpl negb. cbv iota.
  case_bool_decide as Hv; simpl.
  - split; [eauto|by left].
  - destruct (JSSet.has value (ROLE_CLASSES roleKey)) eqn:Hh; simpl.
    + split; [eauto|]. intros _. right. by apply JSSet_has_true.
    + split; [|by intros (? & ? & [=])]. intros [?|H%JSSet_has_true]; congruence.
Qed.

Lemma menu_offers_what_is_accepted_witness :
  ∃ gs' c, classSelectHandler (sampleGuild None) "mplus" "s1" "class" "TANK" "u1" "Ana"
             "DRUID" 5 = (gs', ClassUpdated c).
Proof.
  apply (menu_offers_what_is_accepted (sampleGuild None) "s1" (sampleSession None));
    [done|done|apply (bool_decide_unpack _); by vm_compute
    |apply (bool_decide_unpack _); by vm_compute].
Defined.
